(** * Matrix transpose routines of trans.c

    A shallow embedding of the six functions of [trans.c] (the dispatcher
    [transpose_submit], the three blocked transposers, the baseline [trans]
    and the verifier [is_transpose]) together with the properties their
    documentation states about them.

    The C functions receive two caller-owned buffers, [int A[N][M]] and
    [int B[M][N]], and [transpose_submit] also prints to [stderr]. They are
    embedded as programs over an explicit machine state holding the two
    buffers and the text written to [stderr]. *)

From Stdlib Require Import ZArith String Lia.
From stdpp Require Import base list.

Local Open Scope Z_scope.

(** ** Machine state *)

(** [matA] and [matB] are the buffers behind the parameters [A] and [B], in
    row-major order as C lays out [int A[N][M]]: the cell [A[i][j]] is the
    word at offset [i * M + j]. The two buffers are distinct objects: the
    harness never passes overlapping matrices. The elements are C [int]s;
    the code only copies and compares them, so they are kept as integers.
    [stderr] is the list of messages printed so far, oldest first. *)
Record state : Type := mkState {
  matA : list Z;
  matB : list Z;
  stderr : list string
}.

Definition set_matB (b : list Z) (s : state) : state :=
  {| matA := matA s; matB := b; stderr := stderr s |}.

Definition set_stderr (e : list string) (s : state) : state :=
  {| matA := matA s; matB := matB s; stderr := e |}.

(** ** Programs *)

(** A program either finishes with a value and a final state, or reads or
    writes outside a matrix (undefined behaviour in C), or exhausts the
    iteration budget of a loop. *)
Inductive result (T : Type) : Type :=
| Ok (t : T) (s : state)
| OutOfBounds
| OutOfFuel.

Arguments Ok {T} t s.
Arguments OutOfBounds {T}.
Arguments OutOfFuel {T}.

Definition prog (T : Type) : Type := state -> result T.

Definition ret {T : Type} (t : T) : prog T := fun s => Ok t s.

Definition bind {T U : Type} (c : prog T) (k : T -> prog U) : prog U :=
  fun s =>
    match c s with
    | Ok t s' => k t s'
    | OutOfBounds => OutOfBounds
    | OutOfFuel => OutOfFuel
    end.

Notation "'let!' x ':=' c 'in' k" := (bind c (fun x => k))
  (at level 10, x name, c at level 100, k at level 200).
Notation "c '>>' k" := (bind c (fun _ => k))
  (at level 90, right associativity).

(** ** Matrix accesses *)

(** [offset W r c] is the position of row [r], column [c] in a buffer whose
    rows are [W] words wide. *)
Definition offset (W r c : Z) : nat := Z.to_nat (r * W + c).

(** [cell W buf r c] is the content of that position, if the buffer has it. *)
Definition cell (W : Z) (buf : list Z) (r c : Z) : option Z :=
  buf !! offset W r c.

(** [in_matrix R W r c]: the indices address a cell of an [R]-by-[W] matrix. *)
Definition in_matrix (R W r c : Z) : bool :=
  (0 <=? r) && (r <? R) && (0 <=? c) && (c <? W).

(** [A[i][j]], where [A] is declared [int A[N][M]]. *)
Definition readA (M N i j : Z) : prog Z := fun s =>
  if in_matrix N M i j then
    match cell M (matA s) i j with
    | Some v => Ok v s
    | None => OutOfBounds
    end
  else OutOfBounds.

(** [B[j][i]] as a value, where [B] is declared [int B[M][N]]. *)
Definition readB (M N j i : Z) : prog Z := fun s =>
  if in_matrix M N j i then
    match cell N (matB s) j i with
    | Some v => Ok v s
    | None => OutOfBounds
    end
  else OutOfBounds.

(** [B[j][i] = v]. *)
Definition writeB (M N j i v : Z) : prog unit := fun s =>
  if in_matrix M N j i then
    if (offset N j i <? length (matB s))%nat then
      Ok tt (set_matB (<[offset N j i := v]> (matB s)) s)
    else OutOfBounds
  else OutOfBounds.

(** [fprintf(stderr, msg)]. *)
Definition fprintf_stderr (msg : string) : prog unit := fun s =>
  Ok tt (set_stderr (stderr s ++ [msg]) s).

(** ** Loops *)

(** [for (i = start; i < stop; i += step) body], run for at most [fuel]
    iterations. *)
Fixpoint for_loop (fuel : nat) (i stop step : Z) (body : Z -> prog unit)
  : prog unit :=
  fun s =>
    if i <? stop then
      match fuel with
      | O => OutOfFuel
      | S fuel' =>
          match body i s with
          | Ok _ s' => for_loop fuel' (i + step) stop step body s'
          | OutOfBounds => OutOfBounds
          | OutOfFuel => OutOfFuel
          end
      end
    else Ok tt s.

(** Every loop of [trans.c] counts upwards by a positive constant, so it
    makes at most [stop - start] iterations (see [for_loop_fuel]). *)
Definition for_ (start stop step : Z) (body : Z -> prog unit) : prog unit :=
  for_loop (Z.to_nat (stop - start)) start stop step body.

(** The same loop for a body that may execute [return v]: the body yields
    [Some v] to return [v] from the enclosing function and [None] to go on
    with the next iteration. *)
Fixpoint for_ret_loop {R : Type} (fuel : nat) (i stop step : Z)
    (body : Z -> prog (option R)) : prog (option R) :=
  fun s =>
    if i <? stop then
      match fuel with
      | O => OutOfFuel
      | S fuel' =>
          match body i s with
          | Ok (Some v) s' => Ok (Some v) s'
          | Ok None s' => for_ret_loop fuel' (i + step) stop step body s'
          | OutOfBounds => OutOfBounds
          | OutOfFuel => OutOfFuel
          end
      end
    else Ok None s.

Definition for_ret {R : Type} (start stop step : Z)
    (body : Z -> prog (option R)) : prog (option R) :=
  for_ret_loop (Z.to_nat (stop - start)) start stop step body.

(** [if (c) body] without an else branch. *)
Definition when (c : bool) (body : prog unit) : prog unit :=
  if c then body else ret tt.

(** ** The functions of trans.c *)

(** [M], [N] and the loop counters are C [int]s. A counter never exceeds
    the bound of its loop by more than the step, and the stepped loops only
    run with bounds 32 and 64, so no counter wraps around and the integers
    are kept unbounded. *)

Definition msg_dimensions : string :=
  "Invalid matrix dimensions: M and N must be positive integers.".

Definition msg_square : string :=
  "Input matrices must have square dimensions for transposition.".

(** The loop nest shared, text for text, by [trans_32x32] and the first
    branch of [transpose_submit]. *)
Definition trans_32x32 (M N : Z) : prog unit :=
  when ((M =? 32) && (N =? 32))
    (for_ 0 N 8 (fun i =>
       for_ 0 M 8 (fun j =>
         for_ i (i + 8) 1 (fun ii =>
           for_ j (j + 8) 1 (fun jj =>
             when (negb ((ii =? jj) && (i =? j)))
               (let! a := readA M N ii jj in writeB M N jj ii a)) >>
           when (i =? j)
             (let! a := readA M N ii ii in writeB M N ii ii a))))).

Definition trans_32x64 (M N : Z) : prog unit :=
  when ((N =? 64) && (M =? 32))
    (for_ 0 N 8 (fun i =>
       for_ 0 M 4 (fun j =>
         for_ i (i + 8) 1 (fun ii =>
           for_ j (j + 4) 1 (fun jj =>
             let! a := readA M N ii jj in writeB M N jj ii a))))).

Definition trans_64x64 (M N : Z) : prog unit :=
  when ((M =? 64) && (N =? 64))
    (for_ 0 N 4 (fun i =>
       for_ 0 M 4 (fun j =>
         for_ i (i + 4) 1 (fun ii =>
           for_ j (j + 4) 1 (fun jj =>
             when (negb ((ii =? jj) && (i =? j)))
               (let! a := readA M N ii jj in writeB M N jj ii a)) >>
           when (i =? j)
             (let! a := readA M N ii ii in writeB M N ii ii a))))).

(** The test guarding the second early return of [transpose_submit]. *)
Definition compatibility_check_fails (M N : Z) : bool :=
  ((N =? 32) || (N =? 64)) && (M =? 32).

(** [transpose_submit]: two early returns, then three guarded loop nests
    that repeat the bodies of the shape-specific functions. *)
Definition transpose_submit (M N : Z) : prog unit :=
  if (M <=? 0) || (N <=? 0) then
    fprintf_stderr msg_dimensions
  else if compatibility_check_fails M N then
    fprintf_stderr msg_square
  else
    when ((M =? 32) && (N =? 32))
      (for_ 0 N 8 (fun i =>
         for_ 0 M 8 (fun j =>
           for_ i (i + 8) 1 (fun ii =>
             for_ j (j + 8) 1 (fun jj =>
               when (negb ((ii =? jj) && (i =? j)))
                 (let! a := readA M N ii jj in writeB M N jj ii a)) >>
             when (i =? j)
               (let! a := readA M N ii ii in writeB M N ii ii a))))) >>
    when ((N =? 64) && (M =? 32))
      (for_ 0 N 8 (fun i =>
         for_ 0 M 4 (fun j =>
           for_ i (i + 8) 1 (fun ii =>
             for_ j (j + 4) 1 (fun jj =>
               let! a := readA M N ii jj in writeB M N jj ii a))))) >>
    when ((M =? 64) && (N =? 64))
      (for_ 0 N 4 (fun i =>
         for_ 0 M 4 (fun j =>
           for_ i (i + 4) 1 (fun ii =>
             for_ j (j + 4) 1 (fun jj =>
               when (negb ((ii =? jj) && (i =? j)))
                 (let! a := readA M N ii jj in writeB M N jj ii a)) >>
             when (i =? j)
               (let! a := readA M N ii ii in writeB M N ii ii a))))).

(** [trans]: the baseline row-wise scan. *)
Definition trans (M N : Z) : prog unit :=
  for_ 0 N 1 (fun i =>
    for_ 0 M 1 (fun j =>
      let! tmp := readA M N i j in
      writeB M N j i tmp)).

(** [is_transpose]: returns 0 at the first mismatch, 1 after a full scan. *)
Definition is_transpose (M N : Z) : prog Z :=
  let! r :=
    for_ret 0 N 1 (fun i =>
      for_ret 0 M 1 (fun j =>
        let! a := readA M N i j in
        let! b := readB M N j i in
        if negb (a =? b) then ret (Some 0) else ret None)) in
  match r with
  | Some v => ret v
  | None => ret 1
  end.

(** ** Vocabulary of the properties *)

(** The buffers have the sizes their declarations give them. *)
Definition well_sized (M N : Z) (s : state) : Prop :=
  length (matA s) = Z.to_nat (N * M) /\ length (matB s) = Z.to_nat (M * N).

(** [B[j][i] == A[i][j]] for every cell of the [N]-by-[M] matrix [A]. *)
Definition transposed (M N : Z) (a b : list Z) : Prop :=
  forall i j, 0 <= i < N -> 0 <= j < M ->
    exists v, cell M a i j = Some v /\ cell N b j i = Some v.

(** The three shapes the optimised transposers are written for. *)
Definition supported_shape (M N : Z) : Prop :=
  (M = 32 /\ N = 32) \/ (M = 32 /\ N = 64) \/ (M = 64 /\ N = 64).

(** Some concrete matrices. *)
Definition iota (n : nat) : list Z := map Z.of_nat (seq 0 n).
Definition zeros (n : nat) : list Z := repeat 0 n.

Definition mk (a b : list Z) : state :=
  {| matA := a; matB := b; stderr := [] |}.

(** [A] holds 0, 1, ..., [n - 1] in row-major order, [B] is zeroed. *)
Definition sample (n : nat) : state := mk (iota n) (zeros n).

(** [progress M N s0 P s]: started in [s0], a transposer has reached [s];
    it has touched nothing but the cells of [B], and every cell [(r, c)] of
    [A] selected by [P] has already been copied to [B[c][r]]. *)
Definition progress (M N : Z) (s0 : state) (P : Z -> Z -> Prop) (s : state)
  : Prop :=
  matA s = matA s0 /\ stderr s = stderr s0
  /\ length (matB s) = length (matB s0)
  /\ forall r c, 0 <= r < N -> 0 <= c < M -> P r c ->
       cell N (matB s) c r = cell M (matA s0) r c.

(** [agree M N s i j]: the test [A[i][j] != B[j][i]] of the verifier fails
    in state [s]. *)
Definition agree (M N : Z) (s : state) (i j : Z) : Prop :=
  cell M (matA s) i j = cell N (matB s) j i.

#[local] Instance agree_dec (M N : Z) (s : state) (i j : Z)
  : Decision (agree M N s i j).
Proof. unfold agree. apply _. Defined.

(** [quiet c]: the program [c] prints nothing. *)
Definition quiet {T : Type} (c : prog T) : Prop :=
  forall s t s', c s = Ok t s' -> stderr s' = stderr s.



(** [sizes la lb s]: the two buffers hold [la] and [lb] elements. *)
Definition sizes (la lb : nat) (s : state) : Prop :=
  length (matA s) = la /\ length (matB s) = lb.

(** [may_fault P c]: started in a state satisfying [P], the program [c]
    either ends normally in such a state or leaves a matrix; it never
    exhausts a loop budget. *)
Definition may_fault (P : state -> Prop) (c : prog unit) : Prop :=
  forall s, P s -> (exists s', c s = Ok tt s' /\ P s') \/ c s = OutOfBounds.

(** The state as seen by a call that passes the two buffers in the other
    order, [f(N, M, B, A)]: the callee's [A] is the caller's [B]. *)
Definition swap (s : state) : state :=
  {| matA := matB s; matB := matA s; stderr := stderr s |}.

(** ** Tiled traversals *)

(** The blocked transposers share one skeleton: [A] is cut into tiles of
    [bi] rows by [bj] columns, the tiles are visited band by band, and
    inside a tile a piece of code [row i j ii] handles the part of row [ii]
    that lies in the tile with corner [(i, j)]. *)
Definition tiled (M N bi bj : Z) (row : Z -> Z -> Z -> prog unit)
  : prog unit :=
  for_ 0 N bi (fun i =>
    for_ 0 M bj (fun j =>
      for_ i (i + bi) 1 (fun ii => row i j ii))).

(** The row of a tile in the 32x32 and 64x64 transposers: the diagonal cell
    is skipped by the inner loop and written after it. *)
Definition deferred_row (M N b i j ii : Z) : prog unit :=
  for_ j (j + b) 1 (fun jj =>
    when (negb ((ii =? jj) && (i =? j)))
      (let! a := readA M N ii jj in writeB M N jj ii a)) >>
  when (i =? j)
    (let! a := readA M N ii ii in writeB M N ii ii a).

(** The row of a tile in the 32x64 transposer. *)
Definition plain_row (M N b j ii : Z) : prog unit :=
  for_ j (j + b) 1 (fun jj =>
    let! a := readA M N ii jj in writeB M N jj ii a).

(** The cells of [A] copied when row [ii] of the tile at [(i, j)] is
    about to be handled: the bands above, the tiles to the left in this
    band, and the rows above in this tile. *)
Definition before (bi bj i j ii : Z) : Z -> Z -> Prop :=
  fun r c => r < i \/ (r < i + bi /\ c < j) \/ (r < ii /\ c < j + bj).

(** ** Reasoning about loops *)

Section Loops.

Variables (stop step : Z) (body : Z -> prog unit).
Hypothesis step_pos : 0 < step.

(** Total correctness of a counting loop: an invariant indexed by the loop
    counter, re-established by every iteration, holds at the exit value of
    the counter, and the budget [stop - i] is never exhausted. *)
Lemma for_loop_fuel (Inv : Z -> state -> Prop) :
  (forall i s, i < stop -> Inv i s ->
     exists s', body i s = Ok tt s' /\ Inv (i + step) s') ->
  forall fuel i s,
    (Z.to_nat (stop - i) <= fuel)%nat -> Inv i s ->
    exists k s', for_loop fuel i stop step body s = Ok tt s'
                 /\ stop <= k /\ Inv k s'.
Proof.
  intros Hbody fuel.
  induction fuel as [|fuel IH]; intros i s Hfuel Hinv; simpl.
  - destruct (Z.ltb_spec i stop) as [Hlt|Hge]; [lia|].
    exists i, s. auto.
  - destruct (Z.ltb_spec i stop) as [Hlt|Hge].
    + destruct (Hbody i s Hlt Hinv) as (s1 & -> & Hinv1).
      apply IH; [lia|assumption].
    + exists i, s. auto.
Qed.

Lemma for_spec (Inv : Z -> state -> Prop) (start : Z) (s : state) :
  Inv start s ->
  (forall i s, i < stop -> Inv i s ->
     exists s', body i s = Ok tt s' /\ Inv (i + step) s') ->
  exists k s', for_ start stop step body s = Ok tt s'
               /\ stop <= k /\ Inv k s'.
Proof.
  intros Hinv Hbody. unfold for_.
  eapply for_loop_fuel; eauto.
Qed.

(** Partial correctness: a property of the state that every iteration
    keeps is kept by the loop, whatever the budget. *)
Lemma for_loop_keeps (P : state -> Prop) :
  (forall i s s', P s -> body i s = Ok tt s' -> P s') ->
  forall fuel i s s',
    P s -> for_loop fuel i stop step body s = Ok tt s' -> P s'.
Proof.
  intros Hbody fuel.
  induction fuel as [|fuel IH]; intros i s s' HP; simpl.
  - destruct (i <? stop); [discriminate|]. intros [= <-]. exact HP.
  - destruct (i <? stop).
    + destruct (body i s) as [[] s1| |] eqn:E; try discriminate.
      apply IH. eapply Hbody; eauto.
    + intros [= <-]. exact HP.
Qed.

End Loops.

Section ReturningLoops.

Context {R : Type}.
Variables (stop step : Z) (body : Z -> prog (option R)).
Hypothesis step_pos : 0 < step.

(** A loop whose body never changes the state either leaves through a
    [return] of the body, at a counter value where the invariant held, or
    runs to the end with the invariant established. *)
Lemma for_ret_loop_fuel (Inv : Z -> Prop) (Post : R -> Prop) (s : state) :
  (forall i, i < stop -> Inv i ->
     (exists v, body i s = Ok (Some v) s /\ Post v)
     \/ (body i s = Ok None s /\ Inv (i + step))) ->
  forall fuel i,
    (Z.to_nat (stop - i) <= fuel)%nat -> Inv i ->
    (exists v, for_ret_loop fuel i stop step body s = Ok (Some v) s
               /\ Post v)
    \/ (exists k, for_ret_loop fuel i stop step body s = Ok None s
                  /\ stop <= k /\ Inv k).
Proof.
  intros Hbody fuel.
  induction fuel as [|fuel IH]; intros i Hfuel Hinv; simpl.
  - destruct (Z.ltb_spec i stop) as [Hlt|Hge]; [lia|].
    right. exists i. auto.
  - destruct (Z.ltb_spec i stop) as [Hlt|Hge].
    + destruct (Hbody i Hlt Hinv) as [(v & -> & Hv)|[-> Hinv1]].
      * left. exists v. auto.
      * apply IH; [lia|assumption].
    + right. exists i. auto.
Qed.

Lemma for_ret_spec (Inv : Z -> Prop) (Post : R -> Prop)
    (start : Z) (s : state) :
  Inv start ->
  (forall i, i < stop -> Inv i ->
     (exists v, body i s = Ok (Some v) s /\ Post v)
     \/ (body i s = Ok None s /\ Inv (i + step))) ->
  (exists v, for_ret start stop step body s = Ok (Some v) s /\ Post v)
  \/ (exists k, for_ret start stop step body s = Ok None s
                /\ stop <= k /\ Inv k).
Proof.
  intros Hinv Hbody. unfold for_ret.
  eapply for_ret_loop_fuel; eauto.
Qed.

End ReturningLoops.

(** ** Reasoning about the matrix accesses *)

Lemma in_matrix_true (R W r c : Z) :
  0 <= r < R -> 0 <= c < W -> in_matrix R W r c = true.
Proof.
  intros Hr Hc. unfold in_matrix.
  destruct (Z.leb_spec 0 r), (Z.ltb_spec r R),
           (Z.leb_spec 0 c), (Z.ltb_spec c W); simpl; lia || reflexivity.
Qed.

(** Inside an [R]-by-[W] matrix the offset stays below [R * W]... *)
Lemma offset_lt (R W r c : Z) :
  0 <= r < R -> 0 <= c < W -> (offset W r c < Z.to_nat (R * W))%nat.
Proof. intros Hr Hc. unfold offset. nia. Qed.

(** ... and distinct cells have distinct offsets. *)
Lemma offset_inj (W r c r' c' : Z) :
  0 <= r -> 0 <= r' -> 0 <= c < W -> 0 <= c' < W ->
  offset W r c = offset W r' c' -> r = r' /\ c = c'.
Proof.
  intros Hr Hr' Hc Hc' Heq. unfold offset in Heq.
  assert (r * W + c = r' * W + c') as E by nia.
  assert (r = r') by nia. split; [assumption|]. subst r'. lia.
Qed.

Lemma cell_is_Some (R W : Z) (buf : list Z) (r c : Z) :
  length buf = Z.to_nat (R * W) -> 0 <= r < R -> 0 <= c < W ->
  exists v, cell W buf r c = Some v.
Proof.
  intros Hlen Hr Hc. unfold cell.
  destruct (lookup_lt_is_Some_2 buf (offset W r c)) as [v Hv].
  - rewrite Hlen. now apply offset_lt.
  - eauto.
Qed.

(** ** Progress of a transposer *)

Section Progress.

Variables (M N : Z) (s0 : state).
Hypothesis sized : well_sized M N s0.

Lemma progress_start : progress M N s0 (fun _ _ => False) s0.
Proof. unfold progress. intuition. Qed.

Lemma progress_weaken (P Q : Z -> Z -> Prop) (s : state) :
  progress M N s0 P s ->
  (forall r c, 0 <= r < N -> 0 <= c < M -> Q r c -> P r c) ->
  progress M N s0 Q s.
Proof.
  intros (HA & HE & HL & HP) HQ. unfold progress. intuition.
Qed.

(** One assignment [B[jj][ii] = A[ii][jj]] extends the copied region by
    the cell [(ii, jj)] and cannot fault. *)
Lemma copy_cell (P Q : Z -> Z -> Prop) (s : state) (ii jj : Z) :
  progress M N s0 P s ->
  0 <= ii < N -> 0 <= jj < M ->
  (forall r c, 0 <= r < N -> 0 <= c < M ->
     Q r c -> P r c \/ (r = ii /\ c = jj)) ->
  exists s',
    (let! a := readA M N ii jj in writeB M N jj ii a) s = Ok tt s'
    /\ progress M N s0 Q s'.
Proof.
  intros (HA & HE & HL & HP) Hii Hjj HQ.
  destruct sized as [HlenA HlenB].
  destruct (cell_is_Some N M (matA s0) ii jj HlenA Hii Hjj) as [v Hv].
  assert (offset N jj ii < length (matB s))%nat as Hoff.
  { rewrite HL, HlenB. now apply offset_lt. }
  unfold bind, readA, writeB.
  rewrite (in_matrix_true N M ii jj Hii Hjj), HA, Hv.
  rewrite (in_matrix_true M N jj ii Hjj Hii).
  apply Nat.ltb_lt in Hoff as Hoffb. rewrite Hoffb.
  eexists. split; [reflexivity|].
  unfold progress, set_matB; simpl.
  rewrite length_insert. repeat split; try assumption.
  intros r c Hr Hc Hq. unfold cell.
  destruct (HQ r c Hr Hc Hq) as [Hp|[-> ->]].
  - destruct (decide (offset N jj ii = offset N c r)) as [E|E].
    + apply offset_inj in E as [-> ->]; try lia.
      rewrite list_lookup_insert_eq by assumption. now rewrite <- Hv.
    + rewrite list_lookup_insert_ne by assumption. now apply HP.
  - rewrite list_lookup_insert_eq by assumption. now rewrite <- Hv.
Qed.

(** Once every cell is copied, [B] is the transpose of [A]. *)
Lemma progress_transposed (P : Z -> Z -> Prop) (s : state) :
  progress M N s0 P s ->
  (forall r c, 0 <= r < N -> 0 <= c < M -> P r c) ->
  transposed M N (matA s0) (matB s).
Proof.
  intros (HA & HE & HL & HP) Hall i j Hi Hj.
  destruct sized as [HlenA HlenB].
  destruct (cell_is_Some N M (matA s0) i j HlenA Hi Hj) as [v Hv].
  exists v. split; [assumption|].
  rewrite HP; auto.
Qed.

End Progress.

(** ** Reasoning about tiled traversals *)

Lemma block_fits (b i n : Z) :
  0 < b -> (b | i) -> (b | n) -> i < n -> i + b <= n.
Proof.
  intros Hb [k ->] [m ->] Hlt.
  apply Z.mul_lt_mono_pos_r in Hlt; [|assumption].
  replace (k * b + b) with ((k + 1) * b) by ring.
  apply Z.mul_le_mono_nonneg_r; lia.
Qed.

Lemma block_next (b i : Z) : (b | i) -> (b | i + b).
Proof. intros H. apply Z.divide_add_r; [assumption|apply Z.divide_refl]. Qed.

Section Tiling.

Variables (M N : Z) (s0 : state).
Hypothesis sized : well_sized M N s0.

Section Skeleton.

Variables (bi bj : Z) (row : Z -> Z -> Z -> prog unit).
Hypotheses (M_nonneg : 0 <= M) (N_nonneg : 0 <= N).
Hypotheses (bi_pos : 0 < bi) (bj_pos : 0 < bj).
Hypotheses (bi_div : (bi | N)) (bj_div : (bj | M)).
Hypothesis row_spec : forall i j ii s,
  0 <= i -> i + bi <= N -> 0 <= j -> j + bj <= M -> i <= ii < i + bi ->
  progress M N s0 (before bi bj i j ii) s ->
  exists s', row i j ii s = Ok tt s'
             /\ progress M N s0 (before bi bj i j (ii + 1)) s'.

Lemma tile_spec (i j : Z) (s : state) :
  0 <= i -> i + bi <= N -> 0 <= j -> j + bj <= M ->
  progress M N s0 (before bi bj i j i) s ->
  exists s', for_ i (i + bi) 1 (fun ii => row i j ii) s = Ok tt s'
             /\ progress M N s0 (before bi bj i j (i + bi)) s'.
Proof.
  intros Hi Hi' Hj Hj' Hs.
  destruct (for_spec (i + bi) 1 (fun ii => row i j ii) ltac:(lia)
              (fun ii s => i <= ii <= i + bi
                 /\ progress M N s0 (before bi bj i j ii) s) i s)
    as (k & s' & Hrun & Hk & Hbound & Hs').
  - split; [lia|assumption].
  - intros ii s1 Hlt [Hii Hs1].
    destruct (row_spec i j ii s1) as (s2 & Hrow & Hs2);
      try assumption; try lia.
    exists s2. split; [assumption|]. split; [lia|assumption].
  - exists s'. split; [assumption|].
    replace (i + bi) with k by lia. assumption.
Qed.

Lemma band_spec (i : Z) (s : state) :
  0 <= i -> i + bi <= N ->
  progress M N s0 (fun r _ => r < i) s ->
  exists s',
    for_ 0 M bj (fun j => for_ i (i + bi) 1 (fun ii => row i j ii)) s
      = Ok tt s'
    /\ progress M N s0 (fun r _ => r < i + bi) s'.
Proof.
  intros Hi Hi' Hs.
  destruct (for_spec M bj
              (fun j => for_ i (i + bi) 1 (fun ii => row i j ii)) bj_pos
              (fun j s => 0 <= j <= M /\ (bj | j)
                 /\ progress M N s0 (before bi bj i j i) s) 0 s)
    as (k & s' & Hrun & Hk & Hbound & Hdiv & Hs').
  - split; [|split].
    + lia.
    + apply Z.divide_0_r.
    + eapply progress_weaken; [exact Hs|].
      unfold before. intros; lia.
  - intros j s1 Hlt (Hj & Hdiv & Hs1).
    pose proof (block_fits bj j M bj_pos Hdiv bj_div Hlt) as Hfit.
    destruct (tile_spec i j s1) as (s2 & Hrun & Hs2);
      try assumption; try lia.
    exists s2. split; [assumption|]. split; [lia|]. split.
    + now apply block_next.
    + eapply progress_weaken; [exact Hs2|].
      unfold before. intros; lia.
  - exists s'. split; [assumption|].
    eapply progress_weaken; [exact Hs'|].
    unfold before. intros; lia.
Qed.

(** A tiled traversal whose rows do their share copies all of [A]. *)
Lemma tiled_spec :
  exists s', tiled M N bi bj row s0 = Ok tt s'
             /\ progress M N s0 (fun _ _ => True) s'.
Proof.
  unfold tiled.
  destruct (for_spec N bi
              (fun i => for_ 0 M bj (fun j =>
                 for_ i (i + bi) 1 (fun ii => row i j ii))) bi_pos
              (fun i s => 0 <= i <= N /\ (bi | i)
                 /\ progress M N s0 (fun r _ => r < i) s) 0 s0)
    as (k & s' & Hrun & Hk & Hbound & Hdiv & Hs').
  - split; [|split].
    + lia.
    + apply Z.divide_0_r.
    + eapply progress_weaken; [apply progress_start|].
      intros; lia.
  - intros i s1 Hlt (Hi & Hdiv & Hs1).
    pose proof (block_fits bi i N bi_pos Hdiv bi_div Hlt) as Hfit.
    destruct (band_spec i s1) as (s2 & Hrun & Hs2);
      try assumption; try lia.
    exists s2. split; [assumption|]. split; [lia|]. split; [|assumption].
    now apply block_next.
  - exists s'. split; [assumption|].
    eapply progress_weaken; [exact Hs'|].
    cbv beta. intros; lia.
Qed.

End Skeleton.

End Tiling.

Lemma bind_Ok {T U : Type} (c : prog T) (k : T -> prog U)
    (s s1 : state) (t : T) :
  c s = Ok t s1 -> bind c k s = k t s1.
Proof. intros H. unfold bind. now rewrite H. Qed.

Section Rows.

Variables (M N : Z) (s0 : state).
Hypothesis sized : well_sized M N s0.

(** A row with deferred diagonal does its share of a square tile. *)
Lemma deferred_row_spec (b i j ii : Z) (s : state) :
  0 <= i -> i + b <= N -> 0 <= j -> j + b <= M -> i <= ii < i + b ->
  progress M N s0 (before b b i j ii) s ->
  exists s', deferred_row M N b i j ii s = Ok tt s'
             /\ progress M N s0 (before b b i j (ii + 1)) s'.
Proof.
  intros Hi Hi' Hj Hj' Hii Hs. unfold deferred_row.
  destruct (for_spec (j + b) 1
              (fun jj => when (negb ((ii =? jj) && (i =? j)))
                 (let! a := readA M N ii jj in writeB M N jj ii a))
              ltac:(lia)
              (fun jj s => j <= jj <= j + b
                 /\ progress M N s0
                      (fun r c => before b b i j ii r c
                         \/ (r = ii /\ c < jj /\ ~ (r = c /\ i = j))) s)
              j s)
    as (k & s1 & Hrun & Hk & Hbound & Hs1).
  - split; [lia|].
    eapply progress_weaken; [exact Hs|].
    cbv beta. unfold before. intros; lia.
  - intros jj s2 Hlt [Hjj Hs2].
    destruct (negb ((ii =? jj) && (i =? j))) eqn:Hskip; simpl.
    + destruct (copy_cell M N s0 sized _
                  (fun r c => before b b i j ii r c
                     \/ (r = ii /\ c < jj + 1 /\ ~ (r = c /\ i = j)))
                  s2 ii jj Hs2)
        as (s3 & Hcopy & Hs3); try lia.
      * unfold before. intros; lia.
      * exists s3. split; [assumption|]. split; [lia|assumption].
    + apply negb_false_iff, andb_true_iff in Hskip as [E1 E2].
      apply Z.eqb_eq in E1, E2.
      exists s2. split; [reflexivity|]. split; [lia|].
      eapply progress_weaken; [exact Hs2|].
      cbv beta. unfold before. intros; lia.
  - rewrite (bind_Ok _ _ _ _ _ Hrun).
    destruct (Z.eqb_spec i j) as [E|E]; simpl.
    + destruct (copy_cell M N s0 sized _ (before b b i j (ii + 1))
                  s1 ii ii Hs1)
        as (s2 & Hcopy & Hs2); try lia.
      * unfold before. intros; lia.
      * exists s2. split; assumption.
    + exists s1. split; [reflexivity|].
      eapply progress_weaken; [exact Hs1|].
      cbv beta. unfold before. intros; lia.
Qed.

(** A plain row does its share of a [bi]-by-[bj] tile. *)
Lemma plain_row_spec (bi bj i j ii : Z) (s : state) :
  0 < bj -> 0 <= i -> i + bi <= N -> 0 <= j -> j + bj <= M -> i <= ii < i + bi ->
  progress M N s0 (before bi bj i j ii) s ->
  exists s', plain_row M N bj j ii s = Ok tt s'
             /\ progress M N s0 (before bi bj i j (ii + 1)) s'.
Proof.
  intros Hbj Hi Hi' Hj Hj' Hii Hs. unfold plain_row.
  destruct (for_spec (j + bj) 1
              (fun jj => let! a := readA M N ii jj in writeB M N jj ii a)
              ltac:(lia)
              (fun jj s => j <= jj <= j + bj
                 /\ progress M N s0
                      (fun r c => before bi bj i j ii r c
                         \/ (r = ii /\ c < jj)) s)
              j s)
    as (k & s1 & Hrun & Hk & Hbound & Hs1).
  - split; [lia|].
    eapply progress_weaken; [exact Hs|].
    cbv beta. unfold before. intros; lia.
  - intros jj s2 Hlt [Hjj Hs2].
    destruct (copy_cell M N s0 sized _
                (fun r c => before bi bj i j ii r c
                   \/ (r = ii /\ c < jj + 1))
                s2 ii jj Hs2)
      as (s3 & Hcopy & Hs3); try lia.
    + unfold before. intros; lia.
    + exists s3. split; [assumption|]. split; [lia|assumption].
  - exists s1. split; [assumption|].
    eapply progress_weaken; [exact Hs1|].
    cbv beta. unfold before. intros; lia.
Qed.

(** The baseline scan copies all of [A]. *)
Lemma trans_spec :
  0 <= M -> 0 <= N ->
  exists s', trans M N s0 = Ok tt s'
             /\ progress M N s0 (fun _ _ => True) s'.
Proof.
  intros HM HN. unfold trans.
  destruct (for_spec N 1
              (fun i => for_ 0 M 1 (fun j =>
                 let! tmp := readA M N i j in writeB M N j i tmp))
              ltac:(lia)
              (fun i s => 0 <= i <= N
                 /\ progress M N s0 (fun r _ => r < i) s) 0 s0)
    as (k & s' & Hrun & Hk & Hbound & Hs').
  - split; [lia|].
    eapply progress_weaken; [apply progress_start|].
    cbv beta. intros; lia.
  - intros i s1 Hlt [Hi Hs1].
    destruct (for_spec M 1
                (fun j => let! tmp := readA M N i j in writeB M N j i tmp)
                ltac:(lia)
                (fun j s => 0 <= j <= M
                   /\ progress M N s0
                        (fun r c => r < i \/ (r = i /\ c < j)) s) 0 s1)
      as (k & s2 & Hrun & Hk & Hbound & Hs2).
    + split; [lia|].
      eapply progress_weaken; [exact Hs1|].
      cbv beta. intros; lia.
    + intros j s3 Hltj [Hj Hs3].
      destruct (copy_cell M N s0 sized _
                  (fun r c => r < i \/ (r = i /\ c < j + 1))
                  s3 i j Hs3)
        as (s4 & Hcopy & Hs4); try lia.
      exists s4. split; [assumption|]. split; [lia|assumption].
    + exists s2. split; [assumption|]. split; [lia|].
      eapply progress_weaken; [exact Hs2|].
      cbv beta. intros; lia.
  - exists s'. split; [assumption|].
    eapply progress_weaken; [exact Hs'|].
    cbv beta. intros; lia.
Qed.

End Rows.

(** ** The verifier *)

Section Verifier.

Variables (M N : Z) (s : state).
Hypothesis sized : well_sized M N s.

Lemma transposed_agree :
  transposed M N (matA s) (matB s) <->
  (forall i j, 0 <= i < N -> 0 <= j < M -> agree M N s i j).
Proof.
  destruct sized as [HlenA HlenB]. unfold agree. split.
  - intros H i j Hi Hj. destruct (H i j Hi Hj) as (v & -> & ->).
    reflexivity.
  - intros H i j Hi Hj.
    destruct (cell_is_Some N M (matA s) i j HlenA Hi Hj) as [v Hv].
    exists v. split; [assumption|]. now rewrite <- H.
Qed.

(** The comparison of one pair of cells. *)
Lemma compare_cells (i j : Z) :
  0 <= i < N -> 0 <= j < M ->
  (let! a := readA M N i j in
   let! b := readB M N j i in
   if negb (a =? b) then ret (Some 0) else ret None) s
  = if decide (agree M N s i j) then Ok None s else Ok (Some 0) s.
Proof.
  intros Hi Hj. destruct sized as [HlenA HlenB].
  destruct (cell_is_Some N M (matA s) i j HlenA Hi Hj) as [a Ha].
  destruct (cell_is_Some M N (matB s) j i HlenB Hj Hi) as [b Hb].
  destruct (decide (agree M N s i j)) as [D|D]; unfold agree in D;
    rewrite Ha, Hb in D; unfold bind, readA, readB;
    rewrite (in_matrix_true N M i j Hi Hj), Ha;
    rewrite (in_matrix_true M N j i Hj Hi), Hb;
    destruct (Z.eqb_spec a b) as [E|E]; simpl;
    reflexivity || congruence.
Qed.

(** The scan of row [i]. *)
Lemma scan_row (i : Z) :
  0 <= i < N ->
  (for_ret 0 M 1 (fun j =>
     let! a := readA M N i j in
     let! b := readB M N j i in
     if negb (a =? b) then ret (Some 0) else ret None) s = Ok (Some 0) s
   /\ exists j, 0 <= j < M /\ ~ agree M N s i j)
  \/ (for_ret 0 M 1 (fun j =>
        let! a := readA M N i j in
        let! b := readB M N j i in
        if negb (a =? b) then ret (Some 0) else ret None) s = Ok None s
      /\ forall j, 0 <= j < M -> agree M N s i j).
Proof.
  intros Hi.
  destruct (for_ret_spec M 1
              (fun j =>
                 let! a := readA M N i j in
                 let! b := readB M N j i in
                 if negb (a =? b) then ret (Some 0) else ret None)
              ltac:(lia)
              (fun j => 0 <= j
                 /\ forall c, 0 <= c < j -> c < M -> agree M N s i c)
              (fun v => v = 0 /\ exists j, 0 <= j < M /\ ~ agree M N s i j)
              0 s)
    as [(v & Hrun & -> & Hbad)|(k & Hrun & Hk & Hpos & Hall)].
  - split; [lia|]. intros; lia.
  - intros j Hlt [Hj Hall].
    rewrite compare_cells by lia.
    destruct (decide (agree M N s i j)) as [D|D].
    + right. split; [reflexivity|]. split; [lia|].
      intros c Hc HcM.
      destruct (Z.eq_dec c j) as [->|Hne]; [assumption|].
      apply Hall; lia.
    + left. exists 0. split; [reflexivity|]. split; [reflexivity|].
      exists j. split; [lia|assumption].
  - left. auto.
  - right. split; [assumption|]. intros j Hj. apply Hall; lia.
Qed.

(** The verifier reads only: it answers 1 when [B] is the transpose of
    [A] and 0 when it is not, in the state it was started in. *)
Lemma is_transpose_run :
  (is_transpose M N s = Ok 1 s /\ transposed M N (matA s) (matB s))
  \/ (is_transpose M N s = Ok 0 s /\ ~ transposed M N (matA s) (matB s)).
Proof.
  unfold is_transpose.
  destruct (for_ret_spec N 1
              (fun i => for_ret 0 M 1 (fun j =>
                 let! a := readA M N i j in
                 let! b := readB M N j i in
                 if negb (a =? b) then ret (Some 0) else ret None))
              ltac:(lia)
              (fun i => 0 <= i /\ forall r c,
                 0 <= r < i -> r < N -> 0 <= c < M -> agree M N s r c)
              (fun v => v = 0 /\ exists i j,
                 0 <= i < N /\ 0 <= j < M /\ ~ agree M N s i j)
              0 s)
    as [(v & Hrun & -> & i & j & Hi & Hj & Hbad)
       |(k & Hrun & Hk & Hpos & Hall)].
  - split; [lia|]. intros; lia.
  - intros i Hlt [Hi Hall].
    destruct (scan_row i ltac:(lia)) as [[Hrow (j & Hj & Hbad)]|[Hrow Hrow_ok]].
    + left. exists 0. split; [assumption|]. split; [reflexivity|].
      exists i, j. repeat split; try lia. assumption.
    + right. split; [assumption|]. split; [lia|].
      intros r c Hr HrN Hc.
      destruct (Z.eq_dec r i) as [->|Hne]; [now apply Hrow_ok|].
      apply Hall; lia.
  - right. rewrite (bind_Ok _ _ _ _ _ Hrun). split; [reflexivity|].
    rewrite transposed_agree. intros H. apply Hbad. now apply H.
  - left. rewrite (bind_Ok _ _ _ _ _ Hrun). split; [reflexivity|].
    rewrite transposed_agree. intros i j Hi Hj. apply Hall; lia.
Qed.

End Verifier.

(** ** Programs that print nothing *)

Lemma quiet_ret {T : Type} (t : T) : quiet (ret t).
Proof. intros s t' s' [= _ <-]. reflexivity. Qed.

Lemma quiet_bind {T U : Type} (c : prog T) (k : T -> prog U) :
  quiet c -> (forall t, quiet (k t)) -> quiet (bind c k).
Proof.
  intros Hc Hk s u s'. unfold bind.
  destruct (c s) as [t s1| |] eqn:E; try discriminate.
  intros Hrun. rewrite (Hk t s1 u s' Hrun). eapply Hc, E.
Qed.

Lemma quiet_when (c : bool) (body : prog unit) :
  quiet body -> quiet (when c body).
Proof. intros H. destruct c; simpl; [assumption|apply quiet_ret]. Qed.

Lemma quiet_readA (M N i j : Z) : quiet (readA M N i j).
Proof.
  intros s t s'. unfold readA.
  destruct (in_matrix N M i j); [|discriminate].
  destruct (cell M (matA s) i j); [|discriminate].
  intros [= _ <-]. reflexivity.
Qed.

Lemma quiet_writeB (M N j i v : Z) : quiet (writeB M N j i v).
Proof.
  intros s t s'. unfold writeB.
  destruct (in_matrix M N j i); [|discriminate].
  destruct (offset N j i <? length (matB s))%nat; [|discriminate].
  intros [= _ <-]. reflexivity.
Qed.

Lemma quiet_for (start stop step : Z) (body : Z -> prog unit) :
  (forall i, quiet (body i)) -> quiet (for_ start stop step body).
Proof.
  intros Hbody s [] s' Hrun. unfold for_ in Hrun.
  apply (for_loop_keeps stop step body
           (fun s1 => stderr s1 = stderr s)) in Hrun; [assumption| |reflexivity].
  intros i s1 s2 Hs1 Hstep. rewrite <- Hs1. eapply Hbody, Hstep.
Qed.

Ltac prove_quiet :=
  repeat first
    [ apply quiet_for; intro
    | apply quiet_bind; [|intro]
    | apply quiet_when
    | apply quiet_readA
    | apply quiet_writeB
    | apply quiet_ret ].

(** ** The transposers as tiled traversals *)

Lemma trans_32x32_tiled :
  trans_32x32 32 32 = tiled 32 32 8 8 (deferred_row 32 32 8).
Proof. reflexivity. Qed.

Lemma trans_32x64_tiled :
  trans_32x64 32 64 = tiled 32 64 8 4 (fun _ => plain_row 32 64 4).
Proof. reflexivity. Qed.

Lemma trans_64x64_tiled :
  trans_64x64 64 64 = tiled 64 64 4 4 (deferred_row 64 64 4).
Proof. reflexivity. Qed.

(** Past its two checks, [transpose_submit] runs the code of [trans_64x64]. *)
Lemma transpose_submit_64x64 (s : state) :
  transpose_submit 64 64 s = trans_64x64 64 64 s.
Proof. reflexivity. Qed.

Lemma deferred_tiled_spec (M N b : Z) (s : state) :
  well_sized M N s -> 0 <= M -> 0 <= N -> 0 < b -> (b | N) -> (b | M) ->
  exists s', tiled M N b b (deferred_row M N b) s = Ok tt s'
             /\ progress M N s (fun _ _ => True) s'.
Proof.
  intros Hs HM HN Hb HdN HdM.
  apply tiled_spec; try assumption.
  intros i j ii s1. now apply deferred_row_spec.
Qed.

Lemma plain_tiled_spec (M N bi bj : Z) (s : state) :
  well_sized M N s -> 0 <= M -> 0 <= N -> 0 < bi -> 0 < bj ->
  (bi | N) -> (bj | M) ->
  exists s', tiled M N bi bj (fun _ => plain_row M N bj) s = Ok tt s'
             /\ progress M N s (fun _ _ => True) s'.
Proof.
  intros Hs HM HN Hbi Hbj HdN HdM.
  apply tiled_spec; try assumption.
  intros i j ii s1. now apply plain_row_spec.
Qed.

(** What a finished transposer leaves behind. *)
Lemma finished (M N : Z) (s s' : state) :
  well_sized M N s -> progress M N s (fun _ _ => True) s' ->
  transposed M N (matA s) (matB s')
  /\ matA s' = matA s /\ stderr s' = stderr s /\ well_sized M N s'.
Proof.
  intros Hs Hp. split.
  - eapply progress_transposed; [exact Hs|exact Hp|]. cbv beta. auto.
  - destruct Hp as (HA & HE & HL & _), Hs as [HlenA HlenB].
    unfold well_sized. rewrite HA, HL. auto.
Qed.

(** A buffer of the right size is determined by the matrix it transposes. *)
Lemma transposed_unique (M N : Z) (a b1 b2 : list Z) :
  0 < M -> 0 < N ->
  length b1 = Z.to_nat (M * N) -> length b2 = Z.to_nat (M * N) ->
  transposed M N a b1 -> transposed M N a b2 -> b1 = b2.
Proof.
  intros HM HN Hl1 Hl2 H1 H2. apply list_eq. intros n.
  destruct (decide (n < Z.to_nat (M * N))%nat) as [Hlt|Hge].
  - pose proof (Z.div_mod (Z.of_nat n) N ltac:(lia)) as Hdm.
    pose proof (Z.mod_pos_bound (Z.of_nat n) N HN) as Hmod.
    assert (0 <= Z.of_nat n / N < M) as Hdiv.
    { split; [apply Z.div_pos; lia|].
      apply Z.div_lt_upper_bound; nia. }
    assert (n = offset N (Z.of_nat n / N) (Z.of_nat n mod N)) as ->.
    { unfold offset. lia. }
    destruct (H1 _ _ Hmod Hdiv) as (v & Hv & Hb1).
    destruct (H2 _ _ Hmod Hdiv) as (w & Hw & Hb2).
    unfold cell in Hb1, Hb2. rewrite Hb1, Hb2. congruence.
  - rewrite !lookup_ge_None_2 by lia. reflexivity.
Qed.

Lemma state_eq (s1 s2 : state) :
  matA s1 = matA s2 -> matB s1 = matB s2 -> stderr s1 = stderr s2 -> s1 = s2.
Proof. destruct s1, s2; simpl; intros -> -> ->; reflexivity. Qed.

(** ** The dispatcher *)

Lemma transpose_submit_rejected (M N : Z) (s : state) :
  0 < M -> 0 < N -> compatibility_check_fails M N = true ->
  transpose_submit M N s = Ok tt (set_stderr (stderr s ++ [msg_square]) s).
Proof.
  intros HM HN Hc. unfold transpose_submit. rewrite Hc.
  destruct (Z.leb_spec M 0), (Z.leb_spec N 0); try lia. reflexivity.
Qed.

Lemma transpose_submit_accepted_quiet (M N : Z) (s s' : state) :
  0 < M -> 0 < N -> compatibility_check_fails M N = false ->
  transpose_submit M N s = Ok tt s' -> stderr s' = stderr s.
Proof.
  intros HM HN Hc. unfold transpose_submit. rewrite Hc.
  destruct (Z.leb_spec M 0), (Z.leb_spec N 0); try lia. cbn [orb].
  match goal with
  | |- ?c s = Ok tt s' -> _ =>
      assert (quiet c) as Hq by prove_quiet; exact (Hq s tt s')
  end.
Qed.

Lemma transpose_submit_unsupported (M N : Z) (s : state) :
  0 < M -> 0 < N -> ~ supported_shape M N ->
  transpose_submit M N s = Ok tt s.
Proof.
  intros HM HN Hns. unfold transpose_submit, compatibility_check_fails.
  destruct (Z.leb_spec M 0), (Z.leb_spec N 0); try lia.
  unfold supported_shape in Hns.
  destruct (Z.eqb_spec M 32), (Z.eqb_spec N 32), (Z.eqb_spec N 64),
           (Z.eqb_spec M 64); try lia; reflexivity.
Qed.

(** The one supported shape that gets past both checks is transposed. *)
Lemma transpose_submit_64x64_correct (s : state) :
  well_sized 64 64 s ->
  exists s', transpose_submit 64 64 s = Ok tt s'
             /\ transposed 64 64 (matA s) (matB s')
             /\ matA s' = matA s /\ stderr s' = stderr s
             /\ is_transpose 64 64 s' = Ok 1 s'.
Proof.
  intros Hs. rewrite transpose_submit_64x64, trans_64x64_tiled.
  destruct (deferred_tiled_spec 64 64 4 s Hs) as (s' & Hrun & Hp);
    try lia; try (exists 16; reflexivity).
  destruct (finished 64 64 s s' Hs Hp) as (Ht & HA & HE & Hs').
  exists s'. repeat (split; [assumption|]).
  destruct (is_transpose_run 64 64 s' Hs') as [[Hv _]|[_ Hbad]];
    [assumption|].
  rewrite HA in Hbad. contradiction.
Qed.

(** ** Properties of the baseline transposer and of the verifier *)

(** C4. For all positive [M] and [N] and every [N]-by-[M] matrix [A],
    [trans] terminates without leaving the matrices and writes
    [B[j][i] = A[i][j]] for every cell, so that [is_transpose] then answers
    1. In particular the 1x1 call sets [B[0][0] = A[0][0]], and the matrix
    [[1,2],[3,4]] is turned into [[1,3],[2,4]], on which [is_transpose]
    answers 1. *)
Theorem trans_correct :
  (forall M N s, 0 < M -> 0 < N -> well_sized M N s ->
     exists s', trans M N s = Ok tt s'
                /\ transposed M N (matA s) (matB s')
                /\ matA s' = matA s /\ stderr s' = stderr s
                /\ is_transpose M N s' = Ok 1 s')
  /\ (forall a b e,
        trans 1 1 (mkState [a] [b] e) = Ok tt (mkState [a] [a] e))
  /\ (forall b0 b1 b2 b3 e,
        trans 2 2 (mkState [1; 2; 3; 4] [b0; b1; b2; b3] e)
          = Ok tt (mkState [1; 2; 3; 4] [1; 3; 2; 4] e)
        /\ is_transpose 2 2 (mkState [1; 2; 3; 4] [1; 3; 2; 4] e)
             = Ok 1 (mkState [1; 2; 3; 4] [1; 3; 2; 4] e)).
Proof.
  split; [|split].
  - intros M N s HM HN Hs.
    destruct (trans_spec M N s Hs) as (s' & Hrun & Hp); try lia.
    destruct (finished M N s s' Hs Hp) as (Ht & HA & HE & Hs').
    exists s'. repeat (split; [assumption|]).
    destruct (is_transpose_run M N s' Hs') as [[Hv _]|[_ Hbad]];
      [assumption|].
    rewrite HA in Hbad. contradiction.
  - reflexivity.
  - intros. split; reflexivity.
Qed.

Lemma trans_correct_witness :
  0 < 2 /\ 0 < 2 /\ well_sized 2 2 (mk [1; 2; 3; 4] (zeros 4))
  /\ exists s', trans 2 2 (mk [1; 2; 3; 4] (zeros 4)) = Ok tt s'
                /\ transposed 2 2 [1; 2; 3; 4] (matB s')
                /\ matA s' = [1; 2; 3; 4] /\ stderr s' = []
                /\ is_transpose 2 2 s' = Ok 1 s'.
Proof.
  split; [lia|]. split; [lia|]. split; [split; reflexivity|].
  apply (proj1 trans_correct 2 2 (mk [1; 2; 3; 4] (zeros 4)));
    [lia|lia|split; reflexivity].
Defined.

(** C8. On matrices of the declared sizes [is_transpose] returns 1 exactly
    when [A[i][j] == B[j][i]] for all [i] in [0,N) and [j] in [0,M), returns
    0 otherwise, and leaves the state, hence [A] and [B], as it found it. *)
Theorem is_transpose_correct (M N : Z) (s : state) :
  well_sized M N s ->
  exists r, is_transpose M N s = Ok r s
            /\ (r = 1 \/ r = 0)
            /\ (r = 1 <-> transposed M N (matA s) (matB s)).
Proof.
  intros Hs.
  destruct (is_transpose_run M N s Hs) as [[Hrun Ht]|[Hrun Hbad]].
  - exists 1. intuition.
  - exists 0. split; [assumption|]. split; [auto|].
    split; [discriminate|contradiction].
Qed.

Lemma is_transpose_correct_witness :
  well_sized 2 2 (mk [1; 2; 3; 4] [1; 3; 2; 4])
  /\ exists r,
       is_transpose 2 2 (mk [1; 2; 3; 4] [1; 3; 2; 4])
         = Ok r (mk [1; 2; 3; 4] [1; 3; 2; 4])
       /\ (r = 1 \/ r = 0)
       /\ (r = 1 <-> transposed 2 2 [1; 2; 3; 4] [1; 3; 2; 4]).
Proof.
  split; [split; reflexivity|].
  apply (is_transpose_correct 2 2 (mk [1; 2; 3; 4] [1; 3; 2; 4])).
  split; reflexivity.
Defined.

(** ** Properties of the shape-specific transposers *)

(** C5. Called with [M = N = 32] on 32x32 matrices, [trans_32x32] - whose
    inner loop skips the diagonal cell of a diagonal tile and whose second
    step writes [B[ii][ii] = A[ii][ii]] - terminates inside the matrices
    with [B[j][i] == A[i][j]] for all [i], [j] in [0,32). *)
Theorem trans_32x32_correct (M N : Z) (s : state) :
  M = 32 -> N = 32 -> well_sized M N s ->
  exists s', trans_32x32 M N s = Ok tt s'
             /\ transposed M N (matA s) (matB s')
             /\ matA s' = matA s /\ stderr s' = stderr s.
Proof.
  intros -> -> Hs. rewrite trans_32x32_tiled.
  destruct (deferred_tiled_spec 32 32 8 s Hs) as (s' & Hrun & Hp);
    try lia; try (exists 4; reflexivity).
  destruct (finished 32 32 s s' Hs Hp) as (Ht & HA & HE & _).
  exists s'. auto.
Qed.

Lemma trans_32x32_correct_witness :
  well_sized 32 32 (mk (iota 1024) (zeros 1024))
  /\ exists s', trans_32x32 32 32 (mk (iota 1024) (zeros 1024)) = Ok tt s'
                /\ transposed 32 32 (iota 1024) (matB s')
                /\ matA s' = iota 1024 /\ stderr s' = [].
Proof.
  split; [split; reflexivity|].
  apply (trans_32x32_correct 32 32 (mk (iota 1024) (zeros 1024)));
    [reflexivity|reflexivity|split; reflexivity].
Defined.

(** C6. Called with [M = 32] and [N = 64] on a 64x32 matrix [A] and a 32x64
    matrix [B], [trans_32x64] - 8-by-4 tiles, every cell copied by the inner
    loop, no special case - terminates inside the matrices with
    [B[j][i] == A[i][j]] for all [i] in [0,64) and [j] in [0,32). *)
Theorem trans_32x64_correct (M N : Z) (s : state) :
  M = 32 -> N = 64 -> well_sized M N s ->
  exists s', trans_32x64 M N s = Ok tt s'
             /\ transposed M N (matA s) (matB s')
             /\ matA s' = matA s /\ stderr s' = stderr s.
Proof.
  intros -> -> Hs. rewrite trans_32x64_tiled.
  destruct (plain_tiled_spec 32 64 8 4 s Hs) as (s' & Hrun & Hp);
    try lia; try (exists 8; reflexivity).
  destruct (finished 32 64 s s' Hs Hp) as (Ht & HA & HE & _).
  exists s'. auto.
Qed.

Lemma trans_32x64_correct_witness :
  well_sized 32 64 (mk (iota 2048) (zeros 2048))
  /\ exists s', trans_32x64 32 64 (mk (iota 2048) (zeros 2048)) = Ok tt s'
                /\ transposed 32 64 (iota 2048) (matB s')
                /\ matA s' = iota 2048 /\ stderr s' = [].
Proof.
  split; [split; reflexivity|].
  apply (trans_32x64_correct 32 64 (mk (iota 2048) (zeros 2048)));
    [reflexivity|reflexivity|split; reflexivity].
Defined.

(** C7. Called with [M = N = 64] on 64x64 matrices, [trans_64x64] and the
    baseline [trans] both terminate, and in the same final state: the same
    [B], with [A] and [stderr] untouched. *)
Theorem trans_64x64_equals_trans (M N : Z) (s : state) :
  M = 64 -> N = 64 -> well_sized M N s ->
  trans_64x64 M N s = trans M N s
  /\ exists s', trans M N s = Ok tt s'
                /\ transposed M N (matA s) (matB s').
Proof.
  intros -> -> Hs. rewrite trans_64x64_tiled.
  destruct (deferred_tiled_spec 64 64 4 s Hs) as (s1 & Hrun1 & Hp1);
    try lia; try (exists 16; reflexivity).
  destruct (trans_spec 64 64 s Hs) as (s2 & Hrun2 & Hp2); try lia.
  destruct (finished 64 64 s s1 Hs Hp1) as (Ht1 & HA1 & HE1 & _ & HB1).
  destruct (finished 64 64 s s2 Hs Hp2) as (Ht2 & HA2 & HE2 & _ & HB2).
  assert (s1 = s2) as ->.
  { apply state_eq; try congruence.
    apply (transposed_unique 64 64 (matA s)); assumption || lia. }
  split; [congruence|]. exists s2. auto.
Qed.

Lemma trans_64x64_equals_trans_witness :
  well_sized 64 64 (mk (iota 4096) (zeros 4096))
  /\ trans_64x64 64 64 (mk (iota 4096) (zeros 4096))
     = trans 64 64 (mk (iota 4096) (zeros 4096))
  /\ exists s', trans 64 64 (mk (iota 4096) (zeros 4096)) = Ok tt s'
                /\ transposed 64 64 (iota 4096) (matB s').
Proof.
  split; [split; reflexivity|].
  apply (trans_64x64_equals_trans 64 64 (mk (iota 4096) (zeros 4096)));
    [reflexivity|reflexivity|split; reflexivity].
Defined.

(** C10. Each shape-specific transposer called with another shape than its
    own returns at once: [B], [A] and [stderr] are exactly as before. *)
Theorem shape_guards (M N : Z) (s : state) :
  (~ (M = 32 /\ N = 32) -> trans_32x32 M N s = Ok tt s)
  /\ (~ (M = 32 /\ N = 64) -> trans_32x64 M N s = Ok tt s)
  /\ (~ (M = 64 /\ N = 64) -> trans_64x64 M N s = Ok tt s).
Proof.
  unfold trans_32x32, trans_32x64, trans_64x64.
  repeat split; intros H;
    destruct (Z.eqb_spec M 32), (Z.eqb_spec N 32), (Z.eqb_spec N 64),
             (Z.eqb_spec M 64); try lia; reflexivity.
Qed.

Lemma shape_guards_witness :
  (~ (32 = 32 /\ 64 = 32) /\ trans_32x32 32 64 (mk [1] [2]) = Ok tt (mk [1] [2]))
  /\ (~ (64 = 32 /\ 64 = 64)
      /\ trans_32x64 64 64 (mk [1] [2]) = Ok tt (mk [1] [2]))
  /\ (~ (32 = 64 /\ 32 = 64)
      /\ trans_64x64 32 32 (mk [1] [2]) = Ok tt (mk [1] [2])).
Proof.
  split; [|split]; (split; [lia|]).
  - apply (proj1 (shape_guards 32 64 (mk [1] [2]))); lia.
  - apply (proj1 (proj2 (shape_guards 64 64 (mk [1] [2])))); lia.
  - apply (proj2 (proj2 (shape_guards 32 32 (mk [1] [2])))); lia.
Defined.

(** ** Properties of the dispatcher *)

(** C9. When [M <= 0] or [N <= 0], [transpose_submit] prints the
    invalid-dimensions message and returns normally with [B] (and [A])
    unchanged. *)
Theorem transpose_submit_nonpositive (M N : Z) (s : state) :
  M <= 0 \/ N <= 0 ->
  exists s', transpose_submit M N s = Ok tt s'
             /\ matB s' = matB s /\ matA s' = matA s
             /\ stderr s' = stderr s ++ [msg_dimensions].
Proof.
  intros H. unfold transpose_submit.
  destruct (Z.leb_spec M 0), (Z.leb_spec N 0); try lia;
    (eexists; split; [reflexivity|]; auto).
Qed.

Lemma transpose_submit_nonpositive_witness :
  (0 <= 0 \/ 5 <= 0)
  /\ exists s', transpose_submit 0 5 (mk [] [7; 8]) = Ok tt s'
                /\ matB s' = [7; 8] /\ matA s' = []
                /\ stderr s' = [msg_dimensions].
Proof.
  split; [lia|].
  apply (transpose_submit_nonpositive 0 5 (mk [] [7; 8])). lia.
Defined.

(** C2, as the code has it. For positive [M] and [N] the compatibility check
    of [transpose_submit] fires exactly when [M = 32] and [N] is 32 or 64,
    that is on the shapes (32,32) and (32,64). When it fires the call prints
    the square-dimensions message and returns with the matrices untouched;
    when it does not fire the call prints nothing. *)
Theorem compatibility_check_rejects (M N : Z) (s : state) :
  0 < M -> 0 < N ->
  (compatibility_check_fails M N = true <-> M = 32 /\ (N = 32 \/ N = 64))
  /\ (compatibility_check_fails M N = true ->
      transpose_submit M N s
        = Ok tt (set_stderr (stderr s ++ [msg_square]) s))
  /\ (compatibility_check_fails M N = false ->
      forall s', transpose_submit M N s = Ok tt s' -> stderr s' = stderr s).
Proof.
  intros HM HN. split; [|split].
  - unfold compatibility_check_fails.
    destruct (Z.eqb_spec M 32), (Z.eqb_spec N 32), (Z.eqb_spec N 64);
      simpl; split; intros; lia || discriminate || reflexivity.
  - now apply transpose_submit_rejected.
  - intros Hc s'. now apply transpose_submit_accepted_quiet.
Qed.

Lemma compatibility_check_rejects_witness :
  0 < 32 /\ 0 < 64
  /\ (compatibility_check_fails 32 64 = true <-> 32 = 32 /\ (64 = 32 \/ 64 = 64))
  /\ (compatibility_check_fails 32 64 = true ->
      transpose_submit 32 64 (mk [1] [2])
        = Ok tt (set_stderr (stderr (mk [1] [2]) ++ [msg_square]) (mk [1] [2])))
  /\ (compatibility_check_fails 32 64 = false ->
      forall s', transpose_submit 32 64 (mk [1] [2]) = Ok tt s' ->
                 stderr s' = stderr (mk [1] [2])).
Proof.
  split; [lia|]. split; [lia|].
  apply (compatibility_check_rejects 32 64 (mk [1] [2])); lia.
Defined.

(** The claim C2 as worded fails: (64,64) is a supported shape with positive
    dimensions, and the check lets it through. *)
Lemma compatibility_check_misses_64x64 :
  ~ (forall M N, 0 < M -> 0 < N ->
       (compatibility_check_fails M N = true <-> supported_shape M N)).
Proof.
  intros H.
  assert (supported_shape 64 64) as Hs by (right; right; split; reflexivity).
  apply (H 64 64) in Hs; [|lia|lia].
  discriminate Hs.
Qed.

(** C1 fails on the code. On the 32x32 matrix [A] holding 0 .. 1023 and
    a zeroed [B], [transpose_submit 32 32] only prints the square-dimensions
    message: [B] is left as it was, it is not the transpose of [A], and
    [is_transpose] answers 0. The same happens for the shape (32,64) on the
    64x32 matrix holding 0 .. 2047. *)
Theorem transpose_submit_32xN_not_transposed :
  (transpose_submit 32 32 (sample 1024)
     = Ok tt (set_stderr [msg_square] (sample 1024))
   /\ ~ transposed 32 32 (matA (sample 1024))
          (matB (set_stderr [msg_square] (sample 1024)))
   /\ is_transpose 32 32 (set_stderr [msg_square] (sample 1024))
        = Ok 0 (set_stderr [msg_square] (sample 1024)))
  /\ (transpose_submit 32 64 (sample 2048)
        = Ok tt (set_stderr [msg_square] (sample 2048))
      /\ ~ transposed 32 64 (matA (sample 2048))
             (matB (set_stderr [msg_square] (sample 2048)))
      /\ is_transpose 32 64 (set_stderr [msg_square] (sample 2048))
           = Ok 0 (set_stderr [msg_square] (sample 2048))).
Proof.
  split; (split; [reflexivity|]); split.
  - intros H. destruct (H 0 1) as (v & Ha & Hb); try lia.
    vm_compute in Ha, Hb. congruence.
  - vm_compute. reflexivity.
  - intros H. destruct (H 0 1) as (v & Ha & Hb); try lia.
    vm_compute in Ha, Hb. congruence.
  - vm_compute. reflexivity.
Qed.

(** C3 fails on the code. For the unsupported shape (1,1) the call
    [transpose_submit 1 1] returns with [B] unchanged, but it prints
    nothing: [stderr] is as empty as before. *)
Theorem transpose_submit_1x1_silent :
  transpose_submit 1 1 (mk [5] [7]) = Ok tt (mk [5] [7])
  /\ stderr (mk [5] [7]) = [].
Proof. split; reflexivity. Qed.

(** ** Further properties: agreement of the transposers *)

Lemma trans_32x32_spec (s : state) :
  well_sized 32 32 s ->
  exists s', trans_32x32 32 32 s = Ok tt s'
             /\ progress 32 32 s (fun _ _ => True) s'.
Proof.
  intros Hs. rewrite trans_32x32_tiled.
  apply deferred_tiled_spec; try assumption; try lia; exists 4; reflexivity.
Qed.

Lemma trans_32x64_spec (s : state) :
  well_sized 32 64 s ->
  exists s', trans_32x64 32 64 s = Ok tt s'
             /\ progress 32 64 s (fun _ _ => True) s'.
Proof.
  intros Hs. rewrite trans_32x64_tiled.
  apply plain_tiled_spec; try assumption; try lia; exists 8; reflexivity.
Qed.

Lemma trans_64x64_spec (s : state) :
  well_sized 64 64 s ->
  exists s', trans_64x64 64 64 s = Ok tt s'
             /\ progress 64 64 s (fun _ _ => True) s'.
Proof.
  intros Hs. rewrite trans_64x64_tiled.
  apply deferred_tiled_spec; try assumption; try lia; exists 16; reflexivity.
Qed.

(** Two complete runs from the same state end in the same state. *)
Lemma finished_unique (M N : Z) (s s1 s2 : state) :
  0 < M -> 0 < N -> well_sized M N s ->
  progress M N s (fun _ _ => True) s1 ->
  progress M N s (fun _ _ => True) s2 ->
  s1 = s2.
Proof.
  intros HM HN Hs Hp1 Hp2.
  destruct (finished M N s s1 Hs Hp1) as (Ht1 & HA1 & HE1 & _ & HB1).
  destruct (finished M N s s2 Hs Hp2) as (Ht2 & HA2 & HE2 & _ & HB2).
  apply state_eq; try congruence.
  apply (transposed_unique M N (matA s)); assumption.
Qed.

(** The verifier accepts the result of a complete run. *)
Lemma finished_verified (M N : Z) (s s' : state) :
  well_sized M N s -> progress M N s (fun _ _ => True) s' ->
  is_transpose M N s' = Ok 1 s'.
Proof.
  intros Hs Hp.
  destruct (finished M N s s' Hs Hp) as (Ht & HA & HE & Hs').
  destruct (is_transpose_run M N s' Hs') as [[Hv _]|[_ Hbad]];
    [assumption|].
  rewrite HA in Hbad. contradiction.
Qed.

(** X1. For positive dimensions that are none of (32,32), (32,64), (64,64),
    [transpose_submit] is a silent no-op on any buffers: it returns with
    [A], [B] and [stderr] exactly as they were. *)
Theorem transpose_submit_other_shapes_noop (M N : Z) (s : state) :
  0 < M -> 0 < N -> ~ supported_shape M N ->
  transpose_submit M N s = Ok tt s.
Proof. apply transpose_submit_unsupported. Qed.

Lemma transpose_submit_other_shapes_noop_witness :
  0 < 61 /\ 0 < 67 /\ ~ supported_shape 61 67
  /\ transpose_submit 61 67 (mk [1; 2] [3]) = Ok tt (mk [1; 2] [3]).
Proof.
  assert (~ supported_shape 61 67) as H by (unfold supported_shape; lia).
  split; [lia|]. split; [lia|]. split; [exact H|].
  apply (transpose_submit_other_shapes_noop 61 67 (mk [1; 2] [3]));
    [lia|lia|exact H].
Defined.

(** X2. On 64x64 matrices [transpose_submit 64 64] gets past both checks and
    does the work of the baseline: it ends in the very state [trans 64 64]
    ends in, with [B] the transpose of [A] and nothing printed, and
    [is_transpose] then answers 1. *)
Theorem transpose_submit_64x64_as_trans (M N : Z) (s : state) :
  M = 64 -> N = 64 -> well_sized M N s ->
  exists s', transpose_submit M N s = Ok tt s'
             /\ trans M N s = Ok tt s'
             /\ transposed M N (matA s) (matB s')
             /\ stderr s' = stderr s
             /\ is_transpose M N s' = Ok 1 s'.
Proof.
  intros -> -> Hs. rewrite transpose_submit_64x64.
  destruct (trans_64x64_spec s Hs) as (s1 & Hrun1 & Hp1).
  destruct (trans_spec 64 64 s Hs) as (s2 & Hrun2 & Hp2); try lia.
  assert (s2 = s1) as -> by (apply (finished_unique 64 64 s); assumption || lia).
  destruct (finished 64 64 s s1 Hs Hp1) as (Ht & HA & HE & _).
  exists s1. repeat (split; [assumption|]).
  now apply (finished_verified 64 64 s).
Qed.

Lemma transpose_submit_64x64_as_trans_witness :
  well_sized 64 64 (sample 4096)
  /\ exists s', transpose_submit 64 64 (sample 4096) = Ok tt s'
                /\ trans 64 64 (sample 4096) = Ok tt s'
                /\ transposed 64 64 (matA (sample 4096)) (matB s')
                /\ stderr s' = stderr (sample 4096)
                /\ is_transpose 64 64 s' = Ok 1 s'.
Proof.
  split; [split; reflexivity|].
  apply (transpose_submit_64x64_as_trans 64 64 (sample 4096));
    [reflexivity|reflexivity|split; reflexivity].
Defined.

(** X3. On 32x32 matrices [trans_32x32] and the baseline [trans] end in the
    same state, and both do end. *)
Theorem trans_32x32_equals_trans (M N : Z) (s : state) :
  M = 32 -> N = 32 -> well_sized M N s ->
  trans_32x32 M N s = trans M N s
  /\ exists s', trans M N s = Ok tt s'.
Proof.
  intros -> -> Hs.
  destruct (trans_32x32_spec s Hs) as (s1 & Hrun1 & Hp1).
  destruct (trans_spec 32 32 s Hs) as (s2 & Hrun2 & Hp2); try lia.
  assert (s2 = s1) as -> by (apply (finished_unique 32 32 s); assumption || lia).
  split; [congruence|]. exists s1. assumption.
Qed.

Lemma trans_32x32_equals_trans_witness :
  well_sized 32 32 (sample 1024)
  /\ trans_32x32 32 32 (sample 1024) = trans 32 32 (sample 1024)
  /\ exists s', trans 32 32 (sample 1024) = Ok tt s'.
Proof.
  split; [split; reflexivity|].
  apply (trans_32x32_equals_trans 32 32 (sample 1024));
    [reflexivity|reflexivity|split; reflexivity].
Defined.

(** X4. On a 64x32 matrix [A] and a 32x64 matrix [B], [trans_32x64] and the
    baseline [trans] end in the same state, and both do end. *)
Theorem trans_32x64_equals_trans (M N : Z) (s : state) :
  M = 32 -> N = 64 -> well_sized M N s ->
  trans_32x64 M N s = trans M N s
  /\ exists s', trans M N s = Ok tt s'.
Proof.
  intros -> -> Hs.
  destruct (trans_32x64_spec s Hs) as (s1 & Hrun1 & Hp1).
  destruct (trans_spec 32 64 s Hs) as (s2 & Hrun2 & Hp2); try lia.
  assert (s2 = s1) as -> by (apply (finished_unique 32 64 s); assumption || lia).
  split; [congruence|]. exists s1. assumption.
Qed.

Lemma trans_32x64_equals_trans_witness :
  well_sized 32 64 (sample 2048)
  /\ trans_32x64 32 64 (sample 2048) = trans 32 64 (sample 2048)
  /\ exists s', trans 32 64 (sample 2048) = Ok tt s'.
Proof.
  split; [split; reflexivity|].
  apply (trans_32x64_equals_trans 32 64 (sample 2048));
    [reflexivity|reflexivity|split; reflexivity].
Defined.

(** X5. Each shape-specific transposer, run on matrices of its own shape,
    is accepted by the verifier: [is_transpose] called on the result answers
    1 and changes nothing. *)
Theorem shape_transposers_verified (s : state) :
  (well_sized 32 32 s ->
   exists s', trans_32x32 32 32 s = Ok tt s'
              /\ is_transpose 32 32 s' = Ok 1 s')
  /\ (well_sized 32 64 s ->
      exists s', trans_32x64 32 64 s = Ok tt s'
                 /\ is_transpose 32 64 s' = Ok 1 s')
  /\ (well_sized 64 64 s ->
      exists s', trans_64x64 64 64 s = Ok tt s'
                 /\ is_transpose 64 64 s' = Ok 1 s').
Proof.
  split; [|split]; intros Hs.
  - destruct (trans_32x32_spec s Hs) as (s' & Hrun & Hp).
    exists s'. split; [assumption|]. now apply (finished_verified 32 32 s).
  - destruct (trans_32x64_spec s Hs) as (s' & Hrun & Hp).
    exists s'. split; [assumption|]. now apply (finished_verified 32 64 s).
  - destruct (trans_64x64_spec s Hs) as (s' & Hrun & Hp).
    exists s'. split; [assumption|]. now apply (finished_verified 64 64 s).
Qed.

Lemma shape_transposers_verified_witness :
  (well_sized 32 32 (sample 1024)
   /\ exists s', trans_32x32 32 32 (sample 1024) = Ok tt s'
                 /\ is_transpose 32 32 s' = Ok 1 s')
  /\ (well_sized 32 64 (sample 2048)
      /\ exists s', trans_32x64 32 64 (sample 2048) = Ok tt s'
                    /\ is_transpose 32 64 s' = Ok 1 s')
  /\ (well_sized 64 64 (sample 4096)
      /\ exists s', trans_64x64 64 64 (sample 4096) = Ok tt s'
                    /\ is_transpose 64 64 s' = Ok 1 s').
Proof.
  split; [|split]; (split; [split; reflexivity|]).
  - apply (proj1 (shape_transposers_verified (sample 1024))).
    split; reflexivity.
  - apply (proj1 (proj2 (shape_transposers_verified (sample 2048)))).
    split; reflexivity.
  - apply (proj2 (proj2 (shape_transposers_verified (sample 4096)))).
    split; reflexivity.
Defined.

(** ** Further properties: running the transposers again, and back *)

(** Two buffers of one size with the same cells are the same buffer. *)
Lemma cells_ext (R W : Z) (b1 b2 : list Z) :
  0 < R -> 0 < W ->
  length b1 = Z.to_nat (R * W) -> length b2 = Z.to_nat (R * W) ->
  (forall r c, 0 <= r < R -> 0 <= c < W -> cell W b1 r c = cell W b2 r c) ->
  b1 = b2.
Proof.
  intros HR HW Hl1 Hl2 Hcells. apply list_eq. intros n.
  destruct (decide (n < Z.to_nat (R * W))%nat) as [Hlt|Hge].
  - pose proof (Z.div_mod (Z.of_nat n) W ltac:(lia)) as Hdm.
    pose proof (Z.mod_pos_bound (Z.of_nat n) W HW) as Hmod.
    assert (0 <= Z.of_nat n / W < R) as Hdiv.
    { split; [apply Z.div_pos; lia|].
      apply Z.div_lt_upper_bound; nia. }
    assert (n = offset W (Z.of_nat n / W) (Z.of_nat n mod W)) as ->.
    { unfold offset. lia. }
    apply (Hcells _ _ Hdiv Hmod).
  - rewrite !lookup_ge_None_2 by lia. reflexivity.
Qed.

Lemma well_sized_swap (M N : Z) (s : state) :
  well_sized M N s -> well_sized N M (swap s).
Proof. intros [HA HB]. split; simpl; assumption. Qed.

Lemma transposed_swap (M N : Z) (a b : list Z) :
  transposed M N a b -> transposed N M b a.
Proof.
  intros H j i Hj Hi. destruct (H i j Hi Hj) as (v & Ha & Hb).
  exists v. auto.
Qed.

(** X6. The baseline transposer is idempotent: run again on its own result
    it ends in that same state. *)
Theorem trans_idempotent (M N : Z) (s : state) :
  0 < M -> 0 < N -> well_sized M N s ->
  exists s', trans M N s = Ok tt s' /\ trans M N s' = Ok tt s'.
Proof.
  intros HM HN Hs.
  destruct (trans_spec M N s Hs) as (s1 & Hrun1 & Hp1); try lia.
  destruct (finished M N s s1 Hs Hp1) as (Ht & HA & HE & Hs1).
  destruct (trans_spec M N s1 Hs1) as (s2 & Hrun2 & Hp2); try lia.
  assert (progress M N s1 (fun _ _ => True) s1) as Hp0.
  { unfold progress. repeat split; try reflexivity.
    intros r c Hr Hc _. destruct (Ht r c Hr Hc) as (v & Ha & Hb).
    rewrite HA. congruence. }
  assert (s2 = s1) as -> by (apply (finished_unique M N s1); assumption).
  exists s1. auto.
Qed.

Lemma trans_idempotent_witness :
  0 < 3 /\ 0 < 2 /\ well_sized 3 2 (sample 6)
  /\ exists s', trans 3 2 (sample 6) = Ok tt s' /\ trans 3 2 s' = Ok tt s'.
Proof.
  split; [lia|]. split; [lia|]. split; [split; reflexivity|].
  apply (trans_idempotent 3 2 (sample 6)); [lia|lia|split; reflexivity].
Defined.

(** X7. Transposing twice gives the matrix back: after [trans(M, N, A, B)],
    the call [trans(N, M, B, A)] with the buffers in the other order writes
    into [A] exactly what [A] held at the start. *)
Theorem trans_involutive (M N : Z) (s : state) :
  0 < M -> 0 < N -> well_sized M N s ->
  exists s1 s2, trans M N s = Ok tt s1
                /\ trans N M (swap s1) = Ok tt s2
                /\ matB s2 = matA s /\ matA s2 = matB s1.
Proof.
  intros HM HN Hs.
  destruct (trans_spec M N s Hs) as (s1 & Hrun1 & Hp1); try lia.
  destruct (finished M N s s1 Hs Hp1) as (Ht1 & HA1 & HE1 & Hs1).
  pose proof (well_sized_swap M N s1 Hs1) as Hsw.
  destruct (trans_spec N M (swap s1) Hsw) as (s2 & Hrun2 & Hp2); try lia.
  destruct (finished N M (swap s1) s2 Hsw Hp2) as (Ht2 & HA2 & HE2 & Hs2).
  exists s1, s2. repeat (split; [assumption|]). split; [|exact HA2].
  destruct Hs as [HlA _], Hs2 as [_ HlB2].
  apply (cells_ext N M); try assumption.
  intros r c Hr Hc.
  destruct (Ht1 r c Hr Hc) as (v & Ha & Hb).
  destruct (Ht2 c r Hc Hr) as (w & Hb' & Ha'). simpl in Hb'.
  congruence.
Qed.

Lemma trans_involutive_witness :
  0 < 3 /\ 0 < 2 /\ well_sized 3 2 (sample 6)
  /\ exists s1 s2, trans 3 2 (sample 6) = Ok tt s1
                   /\ trans 2 3 (swap s1) = Ok tt s2
                   /\ matB s2 = matA (sample 6) /\ matA s2 = matB s1.
Proof.
  split; [lia|]. split; [lia|]. split; [split; reflexivity|].
  apply (trans_involutive 3 2 (sample 6)); [lia|lia|split; reflexivity].
Defined.

(** X8. [B] is output only: what the baseline transposer leaves in [B]
    depends on [A] alone, not on what [B] held before the call. *)
Theorem trans_overwrites_B (M N : Z) (s1 s2 : state) :
  0 < M -> 0 < N -> well_sized M N s1 -> well_sized M N s2 ->
  matA s1 = matA s2 ->
  exists s1' s2', trans M N s1 = Ok tt s1' /\ trans M N s2 = Ok tt s2'
                  /\ matB s1' = matB s2'.
Proof.
  intros HM HN Hs1 Hs2 HA.
  destruct (trans_spec M N s1 Hs1) as (s1' & Hrun1 & Hp1); try lia.
  destruct (trans_spec M N s2 Hs2) as (s2' & Hrun2 & Hp2); try lia.
  destruct (finished M N s1 s1' Hs1 Hp1) as (Ht1 & _ & _ & _ & HB1).
  destruct (finished M N s2 s2' Hs2 Hp2) as (Ht2 & _ & _ & _ & HB2).
  exists s1', s2'. repeat (split; [assumption|]).
  rewrite HA in Ht1.
  apply (transposed_unique M N (matA s2)); assumption.
Qed.

Lemma trans_overwrites_B_witness :
  0 < 2 /\ 0 < 2
  /\ well_sized 2 2 (mk [1; 2; 3; 4] [0; 0; 0; 0])
  /\ well_sized 2 2 (mk [1; 2; 3; 4] [9; 8; 7; 6])
  /\ matA (mk [1; 2; 3; 4] [0; 0; 0; 0]) = matA (mk [1; 2; 3; 4] [9; 8; 7; 6])
  /\ exists s1' s2',
       trans 2 2 (mk [1; 2; 3; 4] [0; 0; 0; 0]) = Ok tt s1'
       /\ trans 2 2 (mk [1; 2; 3; 4] [9; 8; 7; 6]) = Ok tt s2'
       /\ matB s1' = matB s2'.
Proof.
  split; [lia|]. split; [lia|].
  split; [split; reflexivity|]. split; [split; reflexivity|].
  split; [reflexivity|].
  apply (trans_overwrites_B 2 2 (mk [1; 2; 3; 4] [0; 0; 0; 0])
           (mk [1; 2; 3; 4] [9; 8; 7; 6]));
    [lia|lia|split; reflexivity|split; reflexivity|reflexivity].
Defined.

(** ** Further properties of the verifier *)

(** X9. The verifier does not care which matrix is called the input:
    [is_transpose(M, N, A, B)] and [is_transpose(N, M, B, A)] return the
    same answer. *)
Theorem is_transpose_symmetric (M N : Z) (s : state) :
  well_sized M N s ->
  exists r, is_transpose M N s = Ok r s
            /\ is_transpose N M (swap s) = Ok r (swap s).
Proof.
  intros Hs. pose proof (well_sized_swap M N s Hs) as Hsw.
  destruct (is_transpose_run M N s Hs) as [[Hrun Ht]|[Hrun Hbad]];
    destruct (is_transpose_run N M (swap s) Hsw) as [[Hrun' Ht']|[Hrun' Hbad']];
    simpl in *.
  - exists 1. auto.
  - exfalso. apply Hbad'. now apply transposed_swap.
  - exfalso. apply Hbad. now apply transposed_swap.
  - exists 0. auto.
Qed.

Lemma is_transpose_symmetric_witness :
  well_sized 3 2 (mk [1; 2; 3; 4; 5; 6] [1; 4; 2; 5; 3; 6])
  /\ exists r,
       is_transpose 3 2 (mk [1; 2; 3; 4; 5; 6] [1; 4; 2; 5; 3; 6])
         = Ok r (mk [1; 2; 3; 4; 5; 6] [1; 4; 2; 5; 3; 6])
       /\ is_transpose 2 3 (swap (mk [1; 2; 3; 4; 5; 6] [1; 4; 2; 5; 3; 6]))
          = Ok r (swap (mk [1; 2; 3; 4; 5; 6] [1; 4; 2; 5; 3; 6])).
Proof.
  split; [split; reflexivity|].
  apply (is_transpose_symmetric 3 2
           (mk [1; 2; 3; 4; 5; 6] [1; 4; 2; 5; 3; 6])).
  split; reflexivity.
Defined.

(** X10. For a given [A] the verifier accepts one [B] only: two output
    buffers on which [is_transpose] answers 1 are equal. *)
Theorem is_transpose_accepts_one (M N : Z) (s1 s2 : state) :
  0 < M -> 0 < N -> well_sized M N s1 -> well_sized M N s2 ->
  matA s1 = matA s2 ->
  is_transpose M N s1 = Ok 1 s1 -> is_transpose M N s2 = Ok 1 s2 ->
  matB s1 = matB s2.
Proof.
  intros HM HN Hs1 Hs2 HA H1 H2.
  destruct (is_transpose_run M N s1 Hs1) as [[_ Ht1]|[Hrun _]];
    [|rewrite Hrun in H1; discriminate].
  destruct (is_transpose_run M N s2 Hs2) as [[_ Ht2]|[Hrun _]];
    [|rewrite Hrun in H2; discriminate].
  destruct Hs1 as [_ HB1], Hs2 as [_ HB2]. rewrite HA in Ht1.
  apply (transposed_unique M N (matA s2)); assumption.
Qed.

Lemma is_transpose_accepts_one_witness :
  0 < 2 /\ 0 < 2
  /\ well_sized 2 2 (mk [1; 2; 3; 4] [1; 3; 2; 4])
  /\ well_sized 2 2 (mkState [1; 2; 3; 4] [1; 3; 2; 4] [msg_square])
  /\ is_transpose 2 2 (mk [1; 2; 3; 4] [1; 3; 2; 4])
     = Ok 1 (mk [1; 2; 3; 4] [1; 3; 2; 4])
  /\ is_transpose 2 2 (mkState [1; 2; 3; 4] [1; 3; 2; 4] [msg_square])
     = Ok 1 (mkState [1; 2; 3; 4] [1; 3; 2; 4] [msg_square])
  /\ matB (mk [1; 2; 3; 4] [1; 3; 2; 4])
     = matB (mkState [1; 2; 3; 4] [1; 3; 2; 4] [msg_square]).
Proof.
  split; [lia|]. split; [lia|]. split; [split; reflexivity|].
  split; [split; reflexivity|]. split; [reflexivity|]. split; [reflexivity|].
  apply (is_transpose_accepts_one 2 2 (mk [1; 2; 3; 4] [1; 3; 2; 4])
           (mkState [1; 2; 3; 4] [1; 3; 2; 4] [msg_square]));
    [lia|lia|split; reflexivity|split; reflexivity
    |reflexivity|reflexivity|reflexivity].
Defined.

(** The comparison of a pair of cells that both exist, whatever the sizes
    of the buffers. *)
Lemma compare_present (M N : Z) (s : state) (i j a b : Z) :
  0 <= i < N -> 0 <= j < M ->
  cell M (matA s) i j = Some a -> cell N (matB s) j i = Some b ->
  (let! x := readA M N i j in
   let! y := readB M N j i in
   if negb (x =? y) then ret (Some 0) else ret None) s
  = Ok (if a =? b then None else Some 0) s.
Proof.
  intros Hi Hj Ha Hb. unfold bind, readA, readB.
  rewrite (in_matrix_true N M i j Hi Hj), Ha.
  rewrite (in_matrix_true M N j i Hj Hi), Hb.
  destruct (a =? b); reflexivity.
Qed.

(** X11. The verifier stops at the first mismatch. If, in scanning order,
    every pair of cells before [(i0, j0)] exists and agrees and the pair at
    [(i0, j0)] exists and differs, [is_transpose] returns 0 at once: nothing
    is asked of the cells after it, which need not even exist. *)
Theorem is_transpose_first_mismatch (M N : Z) (s : state) (i0 j0 a b : Z) :
  0 <= i0 < N -> 0 <= j0 < M ->
  (forall i j, 0 <= i < N -> 0 <= j < M ->
     i < i0 \/ (i = i0 /\ j < j0) ->
     exists v, cell M (matA s) i j = Some v /\ cell N (matB s) j i = Some v) ->
  cell M (matA s) i0 j0 = Some a -> cell N (matB s) j0 i0 = Some b ->
  a <> b ->
  is_transpose M N s = Ok 0 s.
Proof.
  intros Hi0 Hj0 Hbefore Ha Hb Hne. unfold is_transpose.
  destruct (for_ret_spec N 1
              (fun i => for_ret 0 M 1 (fun j =>
                 let! a := readA M N i j in
                 let! b := readB M N j i in
                 if negb (a =? b) then ret (Some 0) else ret None))
              ltac:(lia)
              (fun i => 0 <= i <= i0) (fun v => v = 0) 0 s)
    as [(v & Hrun & ->)|(k & Hrun & Hk & Hbound)]; try lia.
  - intros i Hlt Hi.
    destruct (Z.eq_dec i i0) as [->|Hrow].
    + left. exists 0. split; [|reflexivity].
      destruct (for_ret_spec M 1
                  (fun j =>
                     let! a := readA M N i0 j in
                     let! b := readB M N j i0 in
                     if negb (a =? b) then ret (Some 0) else ret None)
                  ltac:(lia)
                  (fun j => 0 <= j <= j0) (fun v => v = 0) 0 s)
        as [(v & Hrun & ->)|(k & Hrun & Hk & Hbound)];
        try lia; try assumption.
      intros j Hltj Hj.
      destruct (Z.eq_dec j j0) as [->|Hcol].
      * left. exists 0. split; [|reflexivity].
        rewrite (compare_present M N s i0 j0 a b) by assumption.
        destruct (Z.eqb_spec a b); [contradiction|reflexivity].
      * right. split; [|lia].
        destruct (Hbefore i0 j) as (v & Hv & Hw); try lia.
        rewrite (compare_present M N s i0 j v v) by (assumption || lia).
        now rewrite Z.eqb_refl.
    + right. split; [|lia].
      destruct (for_ret_spec M 1
                  (fun j =>
                     let! a := readA M N i j in
                     let! b := readB M N j i in
                     if negb (a =? b) then ret (Some 0) else ret None)
                  ltac:(lia)
                  (fun j => 0 <= j) (fun _ : Z => False) 0 s)
        as [(v & _ & [])|(k & Hrun & _)]; try lia; try assumption.
      intros j Hltj Hj. right. split; [|lia].
      destruct (Hbefore i j) as (v & Hv & Hw); try lia.
      rewrite (compare_present M N s i j v v) by (assumption || lia).
      now rewrite Z.eqb_refl.
  - now rewrite (bind_Ok _ _ _ _ _ Hrun).
Qed.

Lemma is_transpose_first_mismatch_witness :
  0 <= 0 < 2 /\ 0 <= 1 < 2
  /\ cell 2 (matA (mk [1; 2] [1; 0; 9])) 0 1 = Some 2
  /\ cell 2 (matB (mk [1; 2] [1; 0; 9])) 1 0 = Some 9
  /\ 2 <> 9
  /\ is_transpose 2 2 (mk [1; 2] [1; 0; 9]) = Ok 0 (mk [1; 2] [1; 0; 9]).
Proof.
  split; [lia|]. split; [lia|]. split; [reflexivity|]. split; [reflexivity|].
  split; [lia|].
  apply (is_transpose_first_mismatch 2 2 (mk [1; 2] [1; 0; 9]) 0 1 2 9);
    [lia|lia| |reflexivity|reflexivity|lia].
  intros i j Hi Hj Hlt.
  assert (i = 0) as -> by lia. assert (j = 0) as -> by lia.
  exists 1. split; reflexivity.
Defined.

(** ** Further properties: empty and undersized matrices *)

Lemma for_empty (start stop step : Z) (body : Z -> prog unit) (s : state) :
  stop <= start -> for_ start stop step body s = Ok tt s.
Proof.
  intros H. unfold for_.
  destruct (Z.to_nat (stop - start)); simpl;
    destruct (Z.ltb_spec start stop); lia || reflexivity.
Qed.

Lemma for_ret_empty {R : Type} (start stop step : Z)
    (body : Z -> prog (option R)) (s : state) :
  stop <= start -> for_ret start stop step body s = Ok None s.
Proof.
  intros H. unfold for_ret.
  destruct (Z.to_nat (stop - start)); simpl;
    destruct (Z.ltb_spec start stop); lia || reflexivity.
Qed.

(** X12. With a non-positive dimension the baseline transposer has no cell
    to copy: on any buffers, even empty ones, [trans] returns normally and
    leaves the whole state as it was. *)
Theorem trans_nonpositive (M N : Z) (s : state) :
  M <= 0 \/ N <= 0 -> trans M N s = Ok tt s.
Proof.
  intros H. unfold trans.
  destruct (Z.le_gt_cases N 0) as [HN|HN]; [now apply for_empty|].
  assert (M <= 0) as HM by lia.
  destruct (for_spec N 1
              (fun i => for_ 0 M 1 (fun j =>
                 let! tmp := readA M N i j in writeB M N j i tmp))
              ltac:(lia) (fun _ s' => s' = s) 0 s eq_refl)
    as (k & s' & Hrun & _ & ->); [|assumption].
  intros i s1 _ ->. exists s. split; [|reflexivity]. now apply for_empty.
Qed.

Lemma trans_nonpositive_witness :
  (0 <= 0 \/ 3 <= 0) /\ trans 0 3 (mk [] [7]) = Ok tt (mk [] [7]).
Proof.
  split; [lia|]. apply (trans_nonpositive 0 3 (mk [] [7])). lia.
Defined.

(** X13. With a non-positive dimension the verifier has no cell to compare:
    on any buffers, whatever they hold, [is_transpose] returns 1. *)
Theorem is_transpose_nonpositive (M N : Z) (s : state) :
  M <= 0 \/ N <= 0 -> is_transpose M N s = Ok 1 s.
Proof.
  intros H. unfold is_transpose.
  destruct (Z.le_gt_cases N 0) as [HN|HN].
  - now rewrite (bind_Ok _ _ s s None) by now apply for_ret_empty.
  - assert (M <= 0) as HM by lia.
    destruct (for_ret_spec N 1
                (fun i => for_ret 0 M 1 (fun j =>
                   let! a := readA M N i j in
                   let! b := readB M N j i in
                   if negb (a =? b) then ret (Some 0) else ret None))
                ltac:(lia) (fun _ => True) (fun _ : Z => False) 0 s I)
      as [(v & _ & [])|(k & Hrun & _)].
    + intros i _ _. right. split; [|exact I]. now apply for_ret_empty.
    + now rewrite (bind_Ok _ _ _ _ _ Hrun).
Qed.

Lemma is_transpose_nonpositive_witness :
  (0 <= 0 \/ 3 <= 0) /\ is_transpose 0 3 (mk [1] [7]) = Ok 1 (mk [1] [7]).
Proof.
  split; [lia|]. apply (is_transpose_nonpositive 0 3 (mk [1] [7])). lia.
Defined.

Section Faults.

Variables (stop step : Z) (body : Z -> prog unit) (P : state -> Prop).
Hypothesis step_pos : 0 < step.
Hypothesis body_may_fault : forall i, may_fault P (body i).

(** A loop of iterations that may fault may fault, and does nothing else. *)
Lemma for_loop_may_fault (fuel : nat) :
  forall i s, (Z.to_nat (stop - i) <= fuel)%nat -> P s ->
    (exists s', for_loop fuel i stop step body s = Ok tt s' /\ P s')
    \/ for_loop fuel i stop step body s = OutOfBounds.
Proof.
  induction fuel as [|fuel IH]; intros i s Hfuel HP; simpl;
    destruct (Z.ltb_spec i stop) as [Hlt|Hge]; try lia; eauto.
  destruct (body_may_fault i s HP) as [(s1 & -> & HP1)| ->]; [|auto].
  apply IH; [lia|assumption].
Qed.

Lemma for_may_fault (start : Z) : may_fault P (for_ start stop step body).
Proof. intros s HP. unfold for_. now apply for_loop_may_fault. Qed.

(** If the iteration [n] steps ahead is in range and faults, so does the
    loop: either there or before. *)
Lemma for_loop_must_fault (n : nat) :
  forall fuel i s,
    (Z.to_nat (stop - i) <= fuel)%nat -> P s ->
    i + Z.of_nat n * step < stop ->
    (forall s', P s' -> body (i + Z.of_nat n * step) s' = OutOfBounds) ->
    for_loop fuel i stop step body s = OutOfBounds.
Proof.
  induction n as [|n IH]; intros fuel i s Hfuel HP Hlt Hbad.
  - replace (i + Z.of_nat 0 * step) with i in * by lia.
    destruct fuel as [|fuel]; [lia|]. simpl.
    destruct (Z.ltb_spec i stop); [|lia]. now rewrite Hbad.
  - assert (i < stop) as Hi by nia.
    destruct fuel as [|fuel]; [lia|]. simpl.
    destruct (Z.ltb_spec i stop); [|lia].
    destruct (body_may_fault i s HP) as [(s1 & -> & HP1)| ->]; [|reflexivity].
    replace (i + Z.of_nat (S n) * step)
      with ((i + step) + Z.of_nat n * step) in * by lia.
    apply IH; assumption || lia.
Qed.

Lemma for_must_fault (start k : Z) (s : state) :
  step = 1 -> start <= k < stop -> P s ->
  (forall s', P s' -> body k s' = OutOfBounds) ->
  for_ start stop step body s = OutOfBounds.
Proof.
  intros Hstep Hk HP Hbad. unfold for_.
  apply (for_loop_must_fault (Z.to_nat (k - start))); try assumption.
  - lia.
  - lia.
  - replace (start + Z.of_nat (Z.to_nat (k - start)) * step) with k by lia.
    assumption.
Qed.

End Faults.

(** One assignment [B[j][i] = A[i][j]] keeps the sizes of the buffers. *)
Lemma copy_may_fault (M N : Z) (la lb : nat) (i j : Z) :
  may_fault (sizes la lb)
    (let! tmp := readA M N i j in writeB M N j i tmp).
Proof.
  intros s [HA HB]. unfold bind, readA, writeB.
  destruct (in_matrix N M i j); [|auto].
  destruct (cell M (matA s) i j); [|auto].
  destruct (in_matrix M N j i); [|auto].
  destruct (offset N j i <? length (matB s))%nat; [|auto].
  left. eexists. split; [reflexivity|].
  split; simpl; [assumption|]. now rewrite length_insert.
Qed.

(** The baseline transposer reaches every cell it is given. *)
Lemma trans_faults_at (M N : Z) (la lb : nat) (i0 j0 : Z) (s : state) :
  0 <= i0 < N -> 0 <= j0 < M -> sizes la lb s ->
  (forall s', sizes la lb s' ->
     (let! tmp := readA M N i0 j0 in writeB M N j0 i0 tmp) s' = OutOfBounds) ->
  trans M N s = OutOfBounds.
Proof.
  intros Hi0 Hj0 Hs Hbad. unfold trans.
  apply (for_must_fault N 1 _ (sizes la lb) ltac:(lia)) with (k := i0);
    try assumption; try lia; try reflexivity.
  - intros i. apply for_may_fault; [lia|]. intros j. apply copy_may_fault.
  - intros s' Hs'.
    apply (for_must_fault M 1 _ (sizes la lb) ltac:(lia)) with (k := j0);
      try assumption; try lia; try reflexivity.
    intros j. apply copy_may_fault.
Qed.

(** In a buffer that is too short some cell of the matrix is missing, and
    the assignment that copies this cell leaves the buffer. *)
Lemma missing_cell (M N : Z) (s : state) :
  0 < M -> 0 < N ->
  Z.of_nat (length (matA s)) < N * M \/ Z.of_nat (length (matB s)) < M * N ->
  exists i0 j0, 0 <= i0 < N /\ 0 <= j0 < M /\
    forall s', sizes (length (matA s)) (length (matB s)) s' ->
      (let! tmp := readA M N i0 j0 in writeB M N j0 i0 tmp) s' = OutOfBounds.
Proof.
  intros HM HN Hshort.
  set (la := length (matA s)) in *. set (lb := length (matB s)) in *.
  destruct Hshort as [HA|HB].
  - pose proof (Z.div_mod (Z.of_nat la) M ltac:(lia)) as Hdm.
    pose proof (Z.mod_pos_bound (Z.of_nat la) M HM) as Hmod.
    assert (0 <= Z.of_nat la / M < N) as Hdiv.
    { split; [apply Z.div_pos; lia|].
      apply Z.div_lt_upper_bound; nia. }
    exists (Z.of_nat la / M), (Z.of_nat la mod M).
    split; [assumption|]. split; [assumption|].
    intros s' [HA' HB']. unfold bind, readA.
    rewrite in_matrix_true by assumption. unfold cell.
    rewrite lookup_ge_None_2; [reflexivity|].
    unfold offset. lia.
  - pose proof (Z.div_mod (Z.of_nat lb) N ltac:(lia)) as Hdm.
    pose proof (Z.mod_pos_bound (Z.of_nat lb) N HN) as Hmod.
    assert (0 <= Z.of_nat lb / N < M) as Hdiv.
    { split; [apply Z.div_pos; lia|].
      apply Z.div_lt_upper_bound; nia. }
    exists (Z.of_nat lb mod N), (Z.of_nat lb / N).
    split; [assumption|]. split; [assumption|].
    intros s' [HA' HB']. unfold bind, readA, writeB.
    destruct (in_matrix N M (Z.of_nat lb mod N) (Z.of_nat lb / N));
      [|reflexivity].
    destruct (cell M (matA s') (Z.of_nat lb mod N) (Z.of_nat lb / N));
      [|reflexivity].
    rewrite in_matrix_true by assumption.
    destruct (Nat.ltb_spec (offset N (Z.of_nat lb / N) (Z.of_nat lb mod N))
                (length (matB s'))) as [Hlt|Hge]; [|reflexivity].
    unfold offset in Hlt. lia.
Qed.

(** X14. The baseline transposer needs both buffers in full: for positive
    [M] and [N], if [A] or [B] holds fewer than [N * M] elements, the call
    does not return normally but reads or writes outside a buffer. *)
Theorem trans_undersized (M N : Z) (s : state) :
  0 < M -> 0 < N ->
  Z.of_nat (length (matA s)) < N * M \/ Z.of_nat (length (matB s)) < M * N ->
  trans M N s = OutOfBounds.
Proof.
  intros HM HN Hshort.
  destruct (missing_cell M N s HM HN Hshort) as (i0 & j0 & Hi0 & Hj0 & Hbad).
  apply (trans_faults_at M N (length (matA s)) (length (matB s)) i0 j0 s
           Hi0 Hj0); [|assumption].
  split; reflexivity.
Qed.

Lemma trans_undersized_witness :
  0 < 2 /\ 0 < 2
  /\ (Z.of_nat (length (matA (mk [1; 2; 3; 4] [0; 0; 0]))) < 2 * 2
      \/ Z.of_nat (length (matB (mk [1; 2; 3; 4] [0; 0; 0]))) < 2 * 2)
  /\ trans 2 2 (mk [1; 2; 3; 4] [0; 0; 0]) = OutOfBounds.
Proof.
  split; [lia|]. split; [lia|]. split; [right; simpl; lia|].
  apply (trans_undersized 2 2 (mk [1; 2; 3; 4] [0; 0; 0]));
    [lia|lia|right; simpl; lia].
Defined.

Lemma when_may_fault (P : state -> Prop) (c : bool) (body : prog unit) :
  may_fault P body -> may_fault P (when c body).
Proof.
  intros H. destruct c; simpl; [assumption|].
  intros s HP. left. exists s. auto.
Qed.

Lemma seq_may_fault (P : state -> Prop) (c1 c2 : prog unit) :
  may_fault P c1 -> may_fault P c2 -> may_fault P (c1 >> c2).
Proof.
  intros H1 H2 s HP. unfold bind.
  destruct (H1 s HP) as [(s1 & -> & HP1)| ->]; [now apply H2|auto].
Qed.

Lemma seq_must_fault (P : state -> Prop) (c1 c2 : prog unit) (s : state) :
  may_fault P c1 -> (forall s', P s' -> c2 s' = OutOfBounds) -> P s ->
  (c1 >> c2) s = OutOfBounds.
Proof.
  intros H1 H2 HP. unfold bind.
  destruct (H1 s HP) as [(s1 & -> & HP1)| ->]; [now apply H2|reflexivity].
Qed.

(** [for_must_fault] for a loop that advances by any positive step. *)
Lemma for_must_fault_step (stop step : Z) (body : Z -> prog unit)
    (P : state -> Prop) (start k : Z) (s : state) :
  0 < step -> (forall i, may_fault P (body i)) ->
  (step | k - start) -> start <= k < stop -> P s ->
  (forall s', P s' -> body k s' = OutOfBounds) ->
  for_ start stop step body s = OutOfBounds.
Proof.
  intros Hstep Hbody [q Hq] Hk HP Hbad. unfold for_.
  assert (0 <= q) as Hq0 by nia.
  apply (for_loop_must_fault stop step body P Hstep Hbody (Z.to_nat q));
    try assumption; try lia.
  replace (start + Z.of_nat (Z.to_nat q) * step) with k by lia.
  assumption.
Qed.

(** The corner of the tile a row or column index falls in. *)
Lemma tile_corner (b x : Z) :
  0 < b -> 0 <= x ->
  (b | b * (x / b)) /\ 0 <= b * (x / b) <= x /\ x < b * (x / b) + b.
Proof.
  intros Hb Hx.
  pose proof (Z.div_mod x b ltac:(lia)) as Hdm.
  pose proof (Z.mod_pos_bound x b Hb) as Hmod.
  pose proof (Z.div_pos x b Hx Hb) as Hdiv.
  split; [apply Z.divide_factor_l|]. nia.
Qed.

Section TiledFaults.

Variables (M N : Z) (la lb : nat).

Lemma deferred_row_may_fault (b i j ii : Z) :
  may_fault (sizes la lb) (deferred_row M N b i j ii).
Proof.
  unfold deferred_row. apply seq_may_fault.
  - apply for_may_fault; [lia|].
    intros jj. apply when_may_fault, copy_may_fault.
  - apply when_may_fault, copy_may_fault.
Qed.

Lemma plain_row_may_fault (b j ii : Z) :
  may_fault (sizes la lb) (plain_row M N b j ii).
Proof.
  unfold plain_row. apply for_may_fault; [lia|].
  intros jj. apply copy_may_fault.
Qed.

(** A row with deferred diagonal reaches every cell of its share: the
    diagonal one after the inner loop, the others inside it. *)
Lemma deferred_row_must_fault (b i j i0 j0 : Z) (s : state) :
  j <= j0 < j + b ->
  (forall s', sizes la lb s' ->
     (let! a := readA M N i0 j0 in writeB M N j0 i0 a) s' = OutOfBounds) ->
  sizes la lb s ->
  deferred_row M N b i j i0 s = OutOfBounds.
Proof.
  intros Hj0 Hbad Hs. unfold deferred_row.
  destruct ((i0 =? j0) && (i =? j)) eqn:E.
  - apply andb_true_iff in E as [E1 E2]. apply Z.eqb_eq in E1. subst j0.
    apply (seq_must_fault (sizes la lb)); try assumption.
    + apply for_may_fault; [lia|].
      intros jj. apply when_may_fault, copy_may_fault.
    + intros s' Hs'. rewrite E2. simpl. now apply Hbad.
  - unfold bind.
    rewrite (for_must_fault (j + b) 1 _ (sizes la lb) ltac:(lia)) with (k := j0);
      try reflexivity; try assumption.
    + intros jj. apply when_may_fault, copy_may_fault.
    + intros s' Hs'. rewrite E. simpl. now apply Hbad.
Qed.

Lemma plain_row_must_fault (b j i0 j0 : Z) (s : state) :
  j <= j0 < j + b ->
  (forall s', sizes la lb s' ->
     (let! a := readA M N i0 j0 in writeB M N j0 i0 a) s' = OutOfBounds) ->
  sizes la lb s ->
  plain_row M N b j i0 s = OutOfBounds.
Proof.
  intros Hj0 Hbad Hs. unfold plain_row.
  apply (for_must_fault (j + b) 1 _ (sizes la lb) ltac:(lia)) with (k := j0);
    try reflexivity; try assumption.
  intros jj. apply copy_may_fault.
Qed.

(** A tiled traversal reaches every row of every tile. *)
Lemma tiled_must_fault (bi bj : Z) (row : Z -> Z -> Z -> prog unit)
    (i0 j0 : Z) (s : state) :
  0 < bi -> 0 < bj ->
  (forall i j ii, may_fault (sizes la lb) (row i j ii)) ->
  0 <= i0 < N -> 0 <= j0 < M ->
  (forall s', sizes la lb s' ->
     row (bi * (i0 / bi)) (bj * (j0 / bj)) i0 s' = OutOfBounds) ->
  sizes la lb s ->
  tiled M N bi bj row s = OutOfBounds.
Proof.
  intros Hbi Hbj Hrow Hi0 Hj0 Hbad Hs. unfold tiled.
  destruct (tile_corner bi i0 Hbi ltac:(lia)) as (Hdi & Hci & Hci').
  destruct (tile_corner bj j0 Hbj ltac:(lia)) as (Hdj & Hcj & Hcj').
  apply (for_must_fault_step N bi _ (sizes la lb) 0 (bi * (i0 / bi)));
    try assumption; try lia.
  - intros i. apply for_may_fault; [assumption|].
    intros j. apply for_may_fault; [lia|]. intros ii. apply Hrow.
  - now rewrite Z.sub_0_r.
  - intros s1 Hs1.
    apply (for_must_fault_step M bj _ (sizes la lb) 0 (bj * (j0 / bj)));
      try assumption; try lia.
    + intros j. apply for_may_fault; [lia|]. intros ii. apply Hrow.
    + now rewrite Z.sub_0_r.
    + intros s2 Hs2.
      apply (for_must_fault (bi * (i0 / bi) + bi) 1 _ (sizes la lb)
               ltac:(lia)) with (k := i0);
        try reflexivity; try assumption; try lia.
      intros ii. apply Hrow.
Qed.

End TiledFaults.

(** X15. The blocked transposers need both buffers in full as well: each
    of them, called with its own shape on an [A] or a [B] that holds fewer
    elements than the matrix, reads or writes outside a buffer. *)
Theorem shape_transposers_undersized (s : state) :
  ((length (matA s) < 1024 \/ length (matB s) < 1024)%nat ->
   trans_32x32 32 32 s = OutOfBounds)
  /\ ((length (matA s) < 2048 \/ length (matB s) < 2048)%nat ->
      trans_32x64 32 64 s = OutOfBounds)
  /\ ((length (matA s) < 4096 \/ length (matB s) < 4096)%nat ->
      trans_64x64 64 64 s = OutOfBounds).
Proof.
  split; [|split]; intros Hshort.
  - destruct (missing_cell 32 32 s) as (i0 & j0 & Hi0 & Hj0 & Hbad);
      try lia.
    rewrite trans_32x32_tiled.
    apply (tiled_must_fault 32 32 (length (matA s)) (length (matB s))
             8 8 _ i0 j0); try assumption; try lia.
    + intros i j ii. apply deferred_row_may_fault.
    + intros s' Hs'.
      apply (deferred_row_must_fault 32 32 (length (matA s)) (length (matB s)))
        with (j0 := j0);
        try assumption.
      destruct (tile_corner 8 j0) as (_ & ? & ?); lia.
    + split; reflexivity.
  - destruct (missing_cell 32 64 s) as (i0 & j0 & Hi0 & Hj0 & Hbad);
      try lia.
    rewrite trans_32x64_tiled.
    apply (tiled_must_fault 32 64 (length (matA s)) (length (matB s))
             8 4 _ i0 j0); try assumption; try lia.
    + intros i j ii. apply plain_row_may_fault.
    + intros s' Hs'.
      apply (plain_row_must_fault 32 64 (length (matA s)) (length (matB s)))
        with (j0 := j0);
        try assumption.
      destruct (tile_corner 4 j0) as (_ & ? & ?); lia.
    + split; reflexivity.
  - destruct (missing_cell 64 64 s) as (i0 & j0 & Hi0 & Hj0 & Hbad);
      try lia.
    rewrite trans_64x64_tiled.
    apply (tiled_must_fault 64 64 (length (matA s)) (length (matB s))
             4 4 _ i0 j0); try assumption; try lia.
    + intros i j ii. apply deferred_row_may_fault.
    + intros s' Hs'.
      apply (deferred_row_must_fault 64 64 (length (matA s)) (length (matB s)))
        with (j0 := j0);
        try assumption.
      destruct (tile_corner 4 j0) as (_ & ? & ?); lia.
    + split; reflexivity.
Qed.

Lemma shape_transposers_undersized_witness :
  ((length (matA (mk (iota 1024) (zeros 1023))) < 1024
    \/ length (matB (mk (iota 1024) (zeros 1023))) < 1024)%nat
   /\ trans_32x32 32 32 (mk (iota 1024) (zeros 1023)) = OutOfBounds)
  /\ ((length (matA (mk (iota 2047) (zeros 2048))) < 2048
       \/ length (matB (mk (iota 2047) (zeros 2048))) < 2048)%nat
      /\ trans_32x64 32 64 (mk (iota 2047) (zeros 2048)) = OutOfBounds)
  /\ ((length (matA (mk (iota 4096) [])) < 4096
       \/ length (matB (mk (iota 4096) [])) < 4096)%nat
      /\ trans_64x64 64 64 (mk (iota 4096) []) = OutOfBounds).
Proof.
  assert (forall n m : nat, (n <? m)%nat = true -> (n < m)%nat) as lt
    by (intros n m; apply Nat.ltb_lt).
  split; [|split].
  - assert ((length (matA (mk (iota 1024) (zeros 1023))) < 1024
             \/ length (matB (mk (iota 1024) (zeros 1023))) < 1024)%nat) as H
      by (right; apply lt; reflexivity).
    split; [exact H|].
    apply (proj1 (shape_transposers_undersized _)). exact H.
  - assert ((length (matA (mk (iota 2047) (zeros 2048))) < 2048
             \/ length (matB (mk (iota 2047) (zeros 2048))) < 2048)%nat) as H
      by (left; apply lt; reflexivity).
    split; [exact H|].
    apply (proj1 (proj2 (shape_transposers_undersized _))). exact H.
  - assert ((length (matA (mk (iota 4096) [])) < 4096
             \/ length (matB (mk (iota 4096) [])) < 4096)%nat) as H
      by (right; apply lt; reflexivity).
    split; [exact H|].
    apply (proj2 (proj2 (shape_transposers_undersized _))). exact H.
Defined.

(** ** Further properties: what the functions leave alone *)










